(** * EMtutor: numerical electric field of charged rectangular plates

    Shallow embedding of the two constructors of [electricfields.ipynb]:
    [constructPlateEfield] (a plate discretised into a grid of point
    charges) and [constructEfieldParallel] (two opposite plates), together
    with the NumPy routines they call ([np.linspace], [np.meshgrid],
    [np.power], [np.sum], [np.vectorize]).

    The program is written once, over an interface [Arith] of the scalar
    operations Python and NumPy perform on float64 values.  It is then read
    at two instances:
    - [R_Arith], exact real arithmetic, for the algebraic and analytic
      properties of the computed field (rounding is not modelled there);
    - [B64_Arith], IEEE 754 binary64 as specified by [SpecFloat], for the
      behaviour on special values (division by zero, infinity, NaN).

    Conventions of the embedding:
    - the arguments [chargeDensity], [Lx], [Ly], [distance] and the global
      [eps0] are Python numbers, so that [/] on them is Python's true
      division, which raises [ZeroDivisionError] on a zero divisor; [Nx] and
      [Ny] are Python integers;
    - a scalar square [v ** 2] has the value of the product [v * v]; on a
      Python float it raises [OverflowError] when that product overflows:
      [Efield] gives the value the inner function computes, [Efield_call]
      the call with this error;
    - [np.sum] adds the entries in row-major order (NumPy adds them
      pairwise; the order is immaterial for the properties proved here);
    - warnings (NumPy's [RuntimeWarning]) are not errors and are not
      modelled. *)

From Stdlib Require Import ZArith List Bool Reals Lra Lia Psatz SpecFloat.
Import ListNotations.

Set Implicit Arguments.

(** ** Python exceptions and the error monad *)

Inductive exn : Type :=
| ZeroDivisionError   (* float division by zero *)
| ValueError          (* raised by np.linspace and np.vectorize *)
| NameError           (* a name that is not bound yet *)
| OverflowError.      (* a Python float power out of range *)

Inductive result (A : Type) : Type :=
| Ok (a : A)
| Raise (e : exn).

Arguments Ok {A} a.
Arguments Raise {A} e.

Definition bind {A B : Type} (r : result A) (k : A -> result B) : result B :=
  match r with
  | Ok a => k a
  | Raise e => Raise e
  end.

Notation "x <- r ;; k" := (bind r (fun x => k))
  (at level 61, r at next level, right associativity).

(** ** The scalar operations of the program *)

Class Arith (F : Type) : Type := {
  of_Z : Z -> F;              (* an integer literal or argument, as a float *)
  fadd : F -> F -> F;
  fsub : F -> F -> F;
  fmul : F -> F -> F;
  fdiv : F -> F -> F;         (* division whose divisor is known non-zero,
                                 and NumPy's array division *)
  fneg : F -> F;
  np_power : F -> F -> F;     (* np.power(base, exponent) *)
  np_pi : F;                  (* np.pi *)
  is_zero : F -> bool         (* the test behind ZeroDivisionError *)
}.

(** Python's float power: whether [v ** 2] is out of range. *)
Class PyFloat (F : Type) : Type := {
  pow2_overflows : F -> bool
}.

Section Program.

Context {F : Type} {A : Arith F}.

(** Python's [a / b] on scalars. *)
Definition truediv (a b : F) : result F :=
  if is_zero b then Raise ZeroDivisionError else Ok (fdiv a b).

(** [v ** 2] *)
Definition sqr (v : F) : F := fmul v v.

(** *** NumPy arrays: vectors as lists, matrices as lists of rows *)

Definition mat : Type := list (list F).

Definition mat_map (f : F -> F) (m : mat) : mat := map (map f) m.

Fixpoint zip_with (f : F -> F -> F) (u v : list F) : list F :=
  match u, v with
  | a :: u', b :: v' => f a b :: zip_with f u' v'
  | _, _ => []
  end.

Fixpoint mat_map2 (f : F -> F -> F) (m n : mat) : mat :=
  match m, n with
  | r :: m', s :: n' => zip_with f r s :: mat_map2 f m' n'
  | _, _ => []
  end.

(** [np.sum]: the sum of all the entries, here in row-major order. *)
Definition np_sum (m : mat) : F := fold_left fadd (concat m) (of_Z 0).

(** [np.arange(0, num)] *)
Definition arange (num : Z) : list F :=
  map (fun i => of_Z (Z.of_nat i)) (seq 0 (Z.to_nat num)).

(** [y[-1] = stop] *)
Definition set_last (y : list F) (stop : F) : list F :=
  match y with
  | [] => []
  | _ => removelast y ++ [stop]
  end.

(** [np.linspace(start, stop, num)] with [endpoint=True]. *)
Definition linspace (start stop : F) (num : Z) : result (list F) :=
  if (num <? 0)%Z then Raise ValueError
  else
    let div := (num - 1)%Z in
    let delta := fsub stop start in
    let y := arange num in
    let y :=
      if (0 <? div)%Z then
        let step := fdiv delta (of_Z div) in
        if is_zero step
        then map (fun i => fmul (fdiv i (of_Z div)) delta) y
        else map (fun i => fmul i step) y
      else map (fun i => fmul i delta) y in
    let y := map (fun v => fadd v start) y in
    Ok (if (1 <? num)%Z then set_last y stop else y).

(** [np.meshgrid(xs, ys)]: both matrices have one row per entry of [ys] and
    one column per entry of [xs]. *)
Definition meshgrid (xs ys : list F) : mat * mat :=
  (map (fun _ => xs) ys, map (fun y => map (fun _ => y) xs) ys).

(** *** Global variables of the notebook *)

Record Globals : Type := { eps0 : F }.

(** *** constructPlateEfield *)

(** The local variables of one call of [constructPlateEfield]. *)
Record PlateFrame : Type := {
  dx : F;
  dy : F;
  fr_xCell : mat;
  fr_yCell : mat;
  cellArea : F;
  cellCharge : F;
  fr_preFactor : F
}.

(** The variables the inner function [Efield] closes over. *)
Record PlateClosure : Type := {
  xCell : mat;
  yCell : mat;
  preFactor : F
}.

Definition two : F := of_Z 2.

(** The body of [constructPlateEfield] up to the definition of [Efield]. *)
Definition constructPlateEfield_frame (g : Globals)
    (chargeDensity Lx Ly : F) (Nx Ny : Z) : result PlateFrame :=
  dx_ <- truediv Lx (of_Z Nx) ;;
  dy_ <- truediv Ly (of_Z Ny) ;;
  xs <- linspace (fadd (fdiv (fneg Lx) two) (fdiv dx_ two))
                 (fsub (fdiv Lx two) (fdiv dx_ two)) Nx ;;
  ys <- linspace (fadd (fdiv (fneg Ly) two) (fdiv dy_ two))
                 (fsub (fdiv Ly two) (fdiv dy_ two)) Ny ;;
  let cellArea_ := fmul dx_ dy_ in
  let cellCharge_ := fmul chargeDensity cellArea_ in
  preFactor_ <- truediv cellCharge_ (fmul (fmul (of_Z 4) np_pi) (eps0 g)) ;;
  Ok {| dx := dx_; dy := dy_;
        fr_xCell := fst (meshgrid xs ys); fr_yCell := snd (meshgrid xs ys);
        cellArea := cellArea_; cellCharge := cellCharge_;
        fr_preFactor := preFactor_ |}.

Definition close (fr : PlateFrame) : PlateClosure :=
  {| xCell := fr_xCell fr; yCell := fr_yCell fr; preFactor := fr_preFactor fr |}.

Definition constructPlateEfield (g : Globals)
    (chargeDensity Lx Ly : F) (Nx Ny : Z) : result PlateClosure :=
  fr <- constructPlateEfield_frame g chargeDensity Lx Ly Nx Ny ;;
  Ok (close fr).

(** The exponent [-3/2]. *)
Definition exponent : F := fdiv (of_Z (-3)) (of_Z 2).

(** The inner function [Efield(x,y,z)] on scalars. *)
Definition Efield (c : PlateClosure) (x y z : F) : F * F * F :=
  let x_xCell := mat_map (fsub x) (xCell c) in
  let y_yCell := mat_map (fsub y) (yCell c) in
  let r2 :=
    mat_map (fun s => fadd s (sqr z))
      (mat_map2 fadd (mat_map sqr x_xCell) (mat_map sqr y_yCell)) in
  let Rinv3 := mat_map (fun b => np_power b exponent) r2 in
  let dEx := mat_map2 fmul (mat_map (fmul (preFactor c)) x_xCell) Rinv3 in
  let dEy := mat_map2 fmul (mat_map (fmul (preFactor c)) y_yCell) Rinv3 in
  let dEz := mat_map (fmul (fmul (preFactor c) z)) Rinv3 in
  (np_sum dEx, np_sum dEy, np_sum dEz).

(** *** np.vectorize(Efield) *)

Definition fst3 (t : F * F * F) : F := fst (fst t).
Definition snd3 (t : F * F * F) : F := snd (fst t).
Definition thd3 (t : F * F * F) : F := snd t.

(** Call of the vectorised function with scalar [x], [y] and an array of
    [z] values, when no call of [f] raises ([vectorize_call] below has the
    calls that raise).  Without [otypes], [np.vectorize] refuses inputs of
    size zero. *)
Definition vectorize_z (f : F -> F -> F -> F * F * F) (x y : F) (zs : list F)
  : result (list F * list F * list F) :=
  match zs with
  | [] => Raise ValueError
  | _ =>
      let out := map (f x y) zs in
      Ok (map fst3 out, map snd3 out, map thd3 out)
  end.

(** Call of the vectorised function at a scalar point. *)
Definition vectorize_scalar (f : F -> F -> F -> F * F * F) (x y z : F)
  : F * F * F := f x y z.

(** *** constructEfieldParallel *)

Record ParallelClosure : Type := {
  Efield1 : PlateClosure;
  Efield2 : PlateClosure;
  distance : F
}.

Definition constructEfieldParallel (g : Globals)
    (chargeDensity dist Lx Ly : F) (Nx Ny : Z) : result ParallelClosure :=
  e1 <- constructPlateEfield g chargeDensity Lx Ly Nx Ny ;;
  e2 <- constructPlateEfield g (fneg chargeDensity) Lx Ly Nx Ny ;;
  Ok {| Efield1 := e1; Efield2 := e2; distance := dist |}.

(** The inner function [Efield(x,y,z)] of [constructEfieldParallel]. *)
Definition EfieldParallel (p : ParallelClosure) (x y z : F) : F * F * F :=
  let '(Ex1, Ey1, Ez1) :=
    vectorize_scalar (Efield (Efield1 p)) x y (fadd z (fdiv (distance p) two)) in
  let '(Ex2, Ey2, Ez2) :=
    vectorize_scalar (Efield (Efield2 p)) x y (fsub z (fdiv (distance p) two)) in
  (fadd Ex1 Ex2, fadd Ey1 Ey2, fadd Ez1 Ez2).

(** *** The field of a point charge, as the notebook tabulates it

    [totalCharge = chargeDensity*Lx*Ly],
    [Rinv3 = np.power(x**2+y**2+zz**2,-3/2)] and the three arrays
    [(totalCharge/(4*np.pi*eps0)) * x * Rinv3], [... * y * Rinv3],
    [... * zz * Rinv3], for scalars [x], [y] and an array [zz]. *)
Definition point_charge_profile (g : Globals)
    (chargeDensity Lx Ly x y : F) (zz : list F)
  : result (list F * list F * list F) :=
  let totalCharge := fmul (fmul chargeDensity Lx) Ly in
  let Rinv3 :=
    map (fun z => np_power (fadd (fadd (sqr x) (sqr y)) (sqr z)) exponent) zz in
  kx <- truediv totalCharge (fmul (fmul (of_Z 4) np_pi) (eps0 g)) ;;
  let Ex_point := map (fmul (fmul kx x)) Rinv3 in
  ky <- truediv totalCharge (fmul (fmul (of_Z 4) np_pi) (eps0 g)) ;;
  let Ey_point := map (fmul (fmul ky y)) Rinv3 in
  kz <- truediv totalCharge (fmul (fmul (of_Z 4) np_pi) (eps0 g)) ;;
  let Ez_point := zip_with fmul (map (fmul kz) zz) Rinv3 in
  Ok (Ex_point, Ey_point, Ez_point).

(** *** The grid as a list of cells *)

(** The matrix whose entry in row [y], column [x] is [h x y]. *)
Definition mat_of (h : F -> F -> F) (xs ys : list F) : mat :=
  map (fun y => map (fun x => h x y) xs) ys.

(** The cell centres of a mesh grid, row by row. *)
Definition cells (xs ys : list F) : list (F * F) :=
  flat_map (fun y => map (fun x => (x, y)) xs) ys.

(** The cell centres held by a closure, entry by entry. *)
Definition closure_cells (c : PlateClosure) : list (F * F) :=
  combine (concat (xCell c)) (concat (yCell c)).

Definition sum_list (l : list F) : F := fold_left fadd l (of_Z 0).

(** The contribution of the cell centred at [cell] to the field at
    [(x,y,z)], as [Efield] computes it. *)
Definition cell_r2 (x y z : F) (cell : F * F) : F :=
  fadd (fadd (sqr (fsub x (fst cell))) (sqr (fsub y (snd cell)))) (sqr z).

Definition cell_Rinv3 (x y z : F) (cell : F * F) : F :=
  np_power (cell_r2 x y z cell) exponent.

Definition cell_dEx (k x y z : F) (cell : F * F) : F :=
  fmul (fmul k (fsub x (fst cell))) (cell_Rinv3 x y z cell).

Definition cell_dEy (k x y z : F) (cell : F * F) : F :=
  fmul (fmul k (fsub y (snd cell))) (cell_Rinv3 x y z cell).

Definition cell_dEz (k x y z : F) (cell : F * F) : F :=
  fmul (fmul k z) (cell_Rinv3 x y z cell).

(** Componentwise sum of two field vectors. *)
Definition vadd (u v : F * F * F) : F * F * F :=
  (fadd (fst3 u) (fst3 v), fadd (snd3 u) (snd3 v), fadd (thd3 u) (thd3 v)).

(** *** The notebook as a sequence of statements

    The global names the statements below read and write: [eps0] and the
    name [Efield], bound to the function returned by
    [constructPlateEfield]. *)

Record Notebook : Type := {
  nb_globals : Globals;
  nb_Efield : option PlateClosure
}.

Inductive stmt : Type :=
| AssignEps0 (v : F)
    (* eps0 = v *)
| AssignEfield (chargeDensity Lx Ly : F) (Nx Ny : Z)
    (* Efield = constructPlateEfield(chargeDensity, Lx, Ly, Nx, Ny) *)
| CallEfield (x y z : F).
    (* print(Efield(x, y, z)) *)

(** One statement: the new state and what it printed. *)
Definition exec (nb : Notebook) (s : stmt)
  : result (Notebook * list (F * F * F)) :=
  match s with
  | AssignEps0 v =>
      Ok ({| nb_globals := {| eps0 := v |}; nb_Efield := nb_Efield nb |}, [])
  | AssignEfield sigma Lx Ly Nx Ny =>
      c <- constructPlateEfield (nb_globals nb) sigma Lx Ly Nx Ny ;;
      Ok ({| nb_globals := nb_globals nb; nb_Efield := Some c |}, [])
  | CallEfield x y z =>
      match nb_Efield nb with
      | Some c => Ok (nb, [vectorize_scalar (Efield c) x y z])
      | None => Raise NameError
      end
  end.

Fixpoint run (nb : Notebook) (prog : list stmt)
  : result (Notebook * list (F * F * F)) :=
  match prog with
  | [] => Ok (nb, [])
  | s :: prog' =>
      r <- exec nb s ;;
      r' <- run (fst r) prog' ;;
      Ok (fst r', snd r ++ snd r')
  end.

(** What a run printed, if it did not raise. *)
Definition printed (r : result (Notebook * list (F * F * F)))
  : result (list (F * F * F)) :=
  r' <- r ;; Ok (snd r').

End Program.

(** ** Calls on Python floats

    [np.vectorize] hands the entries of its arguments to the inner function
    as Python floats, so that [z**2] there is Python's float power, which
    raises [OverflowError] when the square is out of range; the squares of
    the arrays [x-xCell] and [y-yCell] are NumPy's and do not raise. *)

Section Calls.

Context {F : Type} {A : Arith F} {P : PyFloat F}.

(** [v ** 2] on a Python float. *)
Definition py_sqr (v : F) : result F :=
  if pow2_overflows v then Raise OverflowError else Ok (sqr v).

(** One call of the inner function [Efield(x,y,z)]. *)
Definition Efield_call (c : PlateClosure) (x y z : F) : result (F * F * F) :=
  let x_xCell := mat_map (fsub x) (xCell c) in
  let y_yCell := mat_map (fsub y) (yCell c) in
  z2 <- py_sqr z ;;
  let r2 :=
    mat_map (fun s => fadd s z2)
      (mat_map2 fadd (mat_map sqr x_xCell) (mat_map sqr y_yCell)) in
  let Rinv3 := mat_map (fun b => np_power b exponent) r2 in
  let dEx := mat_map2 fmul (mat_map (fmul (preFactor c)) x_xCell) Rinv3 in
  let dEy := mat_map2 fmul (mat_map (fmul (preFactor c)) y_yCell) Rinv3 in
  let dEz := mat_map (fmul (fmul (preFactor c) z)) Rinv3 in
  Ok (np_sum dEx, np_sum dEy, np_sum dEz).

(** The calls on the entries of an array, in order, up to the first one
    that raises. *)
Fixpoint map_result {X Y : Type} (f : X -> result Y) (l : list X)
  : result (list Y) :=
  match l with
  | [] => Ok []
  | v :: l' =>
      w <- f v ;;
      ws <- map_result f l' ;;
      Ok (w :: ws)
  end.

(** Call of [np.vectorize(f)] with scalar [x], [y] and an array of [z]
    values.  Without [otypes], [np.vectorize] refuses inputs of size
    zero. *)
Definition vectorize_call (f : F -> F -> F -> result (F * F * F))
    (x y : F) (zs : list F) : result (list F * list F * list F) :=
  match zs with
  | [] => Raise ValueError
  | _ =>
      out <- map_result (f x y) zs ;;
      Ok (map fst3 out, map snd3 out, map thd3 out)
  end.

(** Call of the function returned by [constructEfieldParallel] at a scalar
    point. *)
Definition EfieldParallel_call (p : ParallelClosure) (x y z : F)
  : result (F * F * F) :=
  E1 <- Efield_call (Efield1 p) x y (fadd z (fdiv (distance p) two)) ;;
  E2 <- Efield_call (Efield2 p) x y (fsub z (fdiv (distance p) two)) ;;
  let '(Ex1, Ey1, Ez1) := E1 in
  let '(Ex2, Ey2, Ez2) := E2 in
  Ok (fadd Ex1 Ex2, fadd Ey1 Ey2, fadd Ez1 Ez2).

(** Whether one of the two shifted heights has a square out of range. *)
Definition shifted_overflows (p : ParallelClosure) (z : F) : bool :=
  pow2_overflows (fadd z (fdiv (distance p) two))
  || pow2_overflows (fsub z (fdiv (distance p) two)).

(** The call [Efield(x, y, z=zz)] of that function with [zz] an array: the
    two shifted arrays go through the vectorised plate functions and the
    outputs are added entry by entry. *)
Definition EfieldParallel_call_z (p : ParallelClosure) (x y : F)
    (zs : list F) : result (list F * list F * list F) :=
  r1 <- vectorize_call (Efield_call (Efield1 p)) x y
          (map (fun z => fadd z (fdiv (distance p) two)) zs) ;;
  r2 <- vectorize_call (Efield_call (Efield2 p)) x y
          (map (fun z => fsub z (fdiv (distance p) two)) zs) ;;
  let '(Ex1, Ey1, Ez1) := r1 in
  let '(Ex2, Ey2, Ez2) := r2 in
  Ok (zip_with fadd Ex1 Ex2, zip_with fadd Ey1 Ey2, zip_with fadd Ez1 Ez2).

End Calls.

(** ** Exact real arithmetic

    The ideal reading of the program.  It describes the computed field
    wherever every squared distance [r2] is positive; at a zero base
    [Rpower] is 1 where [np.power] is infinite, and that case is treated in
    binary64 below. *)

Open Scope R_scope.

#[export] Instance R_Arith : Arith R := {|
  of_Z := IZR;
  fadd := Rplus;
  fsub := Rminus;
  fmul := Rmult;
  fdiv := Rdiv;
  fneg := Ropp;
  np_power := Rpower;
  np_pi := PI;
  is_zero := fun v => if Req_dec_T v 0 then true else false
|}.

(** No square is out of range in the reals. *)
#[export] Instance R_PyFloat : PyFloat R := {|
  pow2_overflows := fun _ => false
|}.

Definition Rsum (l : list R) : R := fold_right Rplus 0 l.

(** The centre of cell [i] of a side of length [L] cut into [N] cells. *)
Definition center (L : R) (N : Z) (i : nat) : R :=
  - L / 2 + L / IZR N / 2 + INR i * (L / IZR N).

Definition cell_centers (L : R) (N : Z) : list R :=
  map (center L N) (seq 0 (Z.to_nat N)).

(** The closure and the frame [constructPlateEfield] builds for a plate, in
    closed form. *)
Definition plate_closure (e sigma Lx Ly : R) (Nx Ny : Z) : PlateClosure :=
  {| xCell := fst (meshgrid (cell_centers Lx Nx) (cell_centers Ly Ny));
     yCell := snd (meshgrid (cell_centers Lx Nx) (cell_centers Ly Ny));
     preFactor :=
       sigma * (Lx / IZR Nx * (Ly / IZR Ny)) / (4 * PI * e) |}.

Definition plate_frame (e sigma Lx Ly : R) (Nx Ny : Z) : PlateFrame :=
  {| dx := Lx / IZR Nx;
     dy := Ly / IZR Ny;
     fr_xCell := fst (meshgrid (cell_centers Lx Nx) (cell_centers Ly Ny));
     fr_yCell := snd (meshgrid (cell_centers Lx Nx) (cell_centers Ly Ny));
     cellArea := Lx / IZR Nx * (Ly / IZR Ny);
     cellCharge := sigma * (Lx / IZR Nx * (Ly / IZR Ny));
     fr_preFactor :=
       sigma * (Lx / IZR Nx * (Ly / IZR Ny)) / (4 * PI * e) |}.

(** *** The field as the specification words it *)

(** The prefactor [k = sigma*dx*dy/(4*pi*eps0)]. *)
Definition spec_k (e sigma Lx Ly : R) (Nx Ny : Z) : R :=
  sigma * (Lx / IZR Nx) * (Ly / IZR Ny) / (4 * PI * e).

(** [invR3 = ((x-xc)^2 + (y-yc)^2 + z^2)^(-3/2)] *)
Definition spec_invR3 (x y z xc yc : R) : R :=
  Rpower ((x - xc) ^ 2 + (y - yc) ^ 2 + z ^ 2) (- 3 / 2).

(** The contribution of the cell centred at [(xc, yc)]. *)
Definition spec_contribution (k x y z : R) (cell : R * R) : R * R * R :=
  let '(xc, yc) := cell in
  (k * (x - xc) * spec_invR3 x y z xc yc,
   k * (y - yc) * spec_invR3 x y z xc yc,
   k * z * spec_invR3 x y z xc yc).

(** [N] points spaced by [L/N], from [-L/2 + dx/2] to [L/2 - dx/2]. *)
Definition spec_points (L : R) (N : Z) : list R :=
  map (fun i => (- L / 2 + L / IZR N / 2) + INR i * (L / IZR N))
      (seq 0 (Z.to_nat N)).

(** The x points crossed with the y points. *)
Definition spec_grid (Lx Ly : R) (Nx Ny : Z) : list (R * R) :=
  list_prod (spec_points Lx Nx) (spec_points Ly Ny).

(** The three sums, one per component. *)
Definition spec_field (e sigma Lx Ly : R) (Nx Ny : Z) (x y z : R)
  : R * R * R :=
  let k := spec_k e sigma Lx Ly Nx Ny in
  let contributions := map (spec_contribution k x y z) (spec_grid Lx Ly Nx Ny) in
  (Rsum (map fst3 contributions),
   Rsum (map snd3 contributions),
   Rsum (map thd3 contributions)).

(** A point at which the squared distance to no cell centre is zero: the
    point is not a cell centre. *)
Definition regular_point (c : PlateClosure) (x y z : R) : Prop :=
  forall cell, In cell (closure_cells c) -> cell_r2 x y z cell <> 0.

(** The field of a point charge [Q] at the origin, at [(0,0,z)]. *)
Definition point_charge_Ez (e Q z : R) : R :=
  Q / (4 * PI * e) * z / Rabs z ^ 3.

(** The electric constant, in farad per metre. *)
Definition eps0_SI : R := 88541878128 / 10 ^ 22.

Close Scope R_scope.

(** ** IEEE 754 binary64 arithmetic *)

Definition prec : Z := 53.
Definition emax : Z := 1024.

Definition b64_of_Z (n : Z) : spec_float := binary_normalize prec emax n 0 false.

(** [np.pi], the double nearest to pi. *)
Definition b64_pi : spec_float := S754_finite false 7074237752028440 (-51).

Definition b64_is_zero (v : spec_float) : bool :=
  match v with
  | S754_zero _ => true
  | _ => false
  end.

(** binary64 with a power function [pow], which IEEE 754 does not fix. *)
Definition B64_Arith (pow : spec_float -> spec_float -> spec_float)
  : Arith spec_float := {|
  of_Z := b64_of_Z;
  fadd := SFadd prec emax;
  fsub := SFsub prec emax;
  fmul := SFmul prec emax;
  fdiv := SFdiv prec emax;
  fneg := SFopp;
  np_power := pow;
  np_pi := b64_pi;
  is_zero := b64_is_zero
|}.

(** Infinity or NaN. *)
Definition nonfinite (v : spec_float) : bool :=
  match v with
  | S754_infinity _ | S754_nan => true
  | _ => false
  end.

(** The square of a finite double is out of range when it rounds to an
    infinity (for a magnitude above about 1.34e154). *)
Definition b64_pow2_overflows (v : spec_float) : bool :=
  match v with
  | S754_finite _ _ _ => nonfinite (SFmul prec emax v v)
  | _ => false
  end.

#[export] Instance B64_PyFloat : PyFloat spec_float := {|
  pow2_overflows := b64_pow2_overflows
|}.

(** A power function for the exponent [-3/2]: [1 / (b * sqrt b)]. *)
Definition pow_m32 (b _ : spec_float) : spec_float :=
  SFdiv prec emax (b64_of_Z 1) (SFmul prec emax b (SFsqrt prec emax b)).

(** The exponent [-3/2] as a double. *)
Definition b64_exponent : spec_float :=
  SFdiv prec emax (b64_of_Z (-3)) (b64_of_Z 2).

(** A plate of one cell, centred at the origin. *)
Definition one_cell_plate : result (PlateClosure (F := spec_float)) :=
  constructPlateEfield (A := B64_Arith pow_m32)
    {| eps0 := b64_of_Z 1 |} (b64_of_Z 1) (b64_of_Z 1) (b64_of_Z 1) 1 1.

Definition one_cell_closure : PlateClosure (F := spec_float) :=
  Eval vm_compute in
    match one_cell_plate with
    | Ok c => c
    | Raise _ => {| xCell := []; yCell := []; preFactor := S754_nan |}
    end.

(** Two plates of one cell each, at distance 2. *)
Definition one_cell_parallel : ParallelClosure (F := spec_float) :=
  Eval vm_compute in
    match constructEfieldParallel (A := B64_Arith pow_m32)
            {| eps0 := b64_of_Z 1 |} (b64_of_Z 1) (b64_of_Z 2)
            (b64_of_Z 1) (b64_of_Z 1) 1 1 with
    | Ok p => p
    | Raise _ =>
        {| Efield1 := one_cell_closure; Efield2 := one_cell_closure;
           distance := S754_nan |}
    end.

(** Case analysis on the outcome of a constructor. *)
Ltac outcome :=
  repeat split; intros;
  repeat match goal with
    | H : exists _, _ |- _ => destruct H
    | H : _ /\ _ |- _ => destruct H
    | H : _ \/ _ |- _ => destruct H
    end;
  try discriminate; try lia; try contradiction; try tauto.

(** Equality of two field vectors, component by component. *)
Ltac triple :=
  apply (f_equal2 (@pair _ _)); [apply (f_equal2 (@pair _ _))|];
  cbn [fst3 snd3 thd3 fst snd]; try lra.

(** * Properties that hold in every arithmetic *)

Section Generic.

Context {F : Type} {A : Arith F}.

Lemma meshgrid_mat_of (xs ys : list F) :
  meshgrid xs ys = (mat_of (fun x _ => x) xs ys, mat_of (fun _ y => y) xs ys).
Proof.
  unfold meshgrid, mat_of. f_equal.
  apply map_ext. intros y. now rewrite map_id.
Qed.

Lemma mat_map_mat_of (f : F -> F) (h : F -> F -> F) (xs ys : list F) :
  mat_map f (mat_of h xs ys) = mat_of (fun x y => f (h x y)) xs ys.
Proof.
  unfold mat_map, mat_of. rewrite map_map.
  apply map_ext. intros y. now rewrite map_map.
Qed.

Lemma zip_with_map (f : F -> F -> F) (h1 h2 : F -> F) (xs : list F) :
  zip_with f (map h1 xs) (map h2 xs) = map (fun x => f (h1 x) (h2 x)) xs.
Proof. induction xs as [|x xs IH]; simpl; [reflexivity | now rewrite IH]. Qed.

Lemma mat_map2_mat_of (f : F -> F -> F) (h1 h2 : F -> F -> F)
    (xs ys : list F) :
  mat_map2 f (mat_of h1 xs ys) (mat_of h2 xs ys)
  = mat_of (fun x y => f (h1 x y) (h2 x y)) xs ys.
Proof.
  unfold mat_of. induction ys as [|y ys IH]; simpl; [reflexivity|].
  now rewrite zip_with_map, IH.
Qed.

Lemma concat_mat_of (h : F -> F -> F) (xs ys : list F) :
  concat (mat_of h xs ys) = map (fun c => h (fst c) (snd c)) (cells xs ys).
Proof.
  unfold mat_of, cells. induction ys as [|y ys IH]; simpl; [reflexivity|].
  now rewrite map_app, map_map, IH.
Qed.

Lemma np_sum_mat_of (h : F -> F -> F) (xs ys : list F) :
  np_sum (mat_of h xs ys)
  = sum_list (map (fun c => h (fst c) (snd c)) (cells xs ys)).
Proof. unfold np_sum, sum_list. now rewrite concat_mat_of. Qed.

(** On a closure holding the two matrices of a mesh grid, [Efield] sums the
    three per-cell contributions over the cells. *)
Lemma Efield_cells (xs ys : list F) (k x y z : F) :
  Efield {| xCell := fst (meshgrid xs ys);
            yCell := snd (meshgrid xs ys);
            preFactor := k |} x y z
  = (sum_list (map (cell_dEx k x y z) (cells xs ys)),
     sum_list (map (cell_dEy k x y z) (cells xs ys)),
     sum_list (map (cell_dEz k x y z) (cells xs ys))).
Proof.
  unfold Efield. rewrite meshgrid_mat_of. cbn [fst snd xCell yCell preFactor].
  rewrite !mat_map_mat_of, !mat_map2_mat_of, !mat_map_mat_of,
    !mat_map2_mat_of, !np_sum_mat_of.
  reflexivity.
Qed.

Lemma combine_map_pair {X : Type} (f g : X -> F) (l : list X) :
  combine (map f l) (map g l) = map (fun v => (f v, g v)) l.
Proof. induction l as [|v l IH]; simpl; [reflexivity | now rewrite IH]. Qed.

Lemma closure_cells_meshgrid (xs ys : list F) (k : F) :
  closure_cells {| xCell := fst (meshgrid xs ys);
                   yCell := snd (meshgrid xs ys);
                   preFactor := k |}
  = cells xs ys.
Proof.
  unfold closure_cells. rewrite meshgrid_mat_of. cbn [fst snd xCell yCell].
  rewrite !concat_mat_of, combine_map_pair.
  rewrite <- (map_id (cells xs ys)) at 2.
  apply map_ext. now intros [xc yc].
Qed.

Lemma length_cells (xs ys : list F) :
  length (cells xs ys) = (length ys * length xs)%nat.
Proof.
  unfold cells. induction ys as [|y ys IH]; simpl; [reflexivity|].
  now rewrite length_app, length_map, IH.
Qed.

(** What a successful construction has computed. *)
Lemma constructPlateEfield_frame_inv g sigma Lx Ly Nx Ny fr :
  constructPlateEfield_frame g sigma Lx Ly Nx Ny = Ok fr ->
  exists xs ys,
    is_zero (of_Z Nx) = false /\ is_zero (of_Z Ny) = false /\
    dx fr = fdiv Lx (of_Z Nx) /\ dy fr = fdiv Ly (of_Z Ny) /\
    linspace (fadd (fdiv (fneg Lx) two) (fdiv (dx fr) two))
             (fsub (fdiv Lx two) (fdiv (dx fr) two)) Nx = Ok xs /\
    linspace (fadd (fdiv (fneg Ly) two) (fdiv (dy fr) two))
             (fsub (fdiv Ly two) (fdiv (dy fr) two)) Ny = Ok ys /\
    fr_xCell fr = fst (meshgrid xs ys) /\
    fr_yCell fr = snd (meshgrid xs ys) /\
    cellArea fr = fmul (dx fr) (dy fr) /\
    cellCharge fr = fmul sigma (cellArea fr) /\
    is_zero (fmul (fmul (of_Z 4) np_pi) (eps0 g)) = false /\
    fr_preFactor fr
    = fdiv (cellCharge fr) (fmul (fmul (of_Z 4) np_pi) (eps0 g)).
Proof.
  unfold constructPlateEfield_frame, truediv.
  destruct (is_zero (of_Z Nx)); [discriminate|].
  destruct (is_zero (of_Z Ny)); [discriminate|]. cbn [bind].
  destruct (linspace _ _ Nx) as [xs|] eqn:Hx; [|discriminate].
  destruct (linspace _ _ Ny) as [ys|] eqn:Hy; [|discriminate]. cbn [bind].
  destruct (is_zero (fmul _ (eps0 g))); [discriminate|]. cbn [bind].
  intros [= <-]. exists xs, ys. cbn. repeat split; assumption.
Qed.

Lemma constructPlateEfield_inv g sigma Lx Ly Nx Ny c :
  constructPlateEfield g sigma Lx Ly Nx Ny = Ok c ->
  exists fr,
    constructPlateEfield_frame g sigma Lx Ly Nx Ny = Ok fr /\ c = close fr.
Proof.
  unfold constructPlateEfield.
  destruct (constructPlateEfield_frame _ _ _ _ _ _) as [fr|]; [|discriminate].
  intros [= <-]. now exists fr.
Qed.

(** A constructed closure holds the two matrices of a mesh grid. *)
Lemma constructPlateEfield_meshgrid g sigma Lx Ly Nx Ny c :
  constructPlateEfield g sigma Lx Ly Nx Ny = Ok c ->
  exists xs ys,
    linspace (fadd (fdiv (fneg Lx) two) (fdiv (fdiv Lx (of_Z Nx)) two))
             (fsub (fdiv Lx two) (fdiv (fdiv Lx (of_Z Nx)) two)) Nx = Ok xs /\
    linspace (fadd (fdiv (fneg Ly) two) (fdiv (fdiv Ly (of_Z Ny)) two))
             (fsub (fdiv Ly two) (fdiv (fdiv Ly (of_Z Ny)) two)) Ny = Ok ys /\
    c = {| xCell := fst (meshgrid xs ys);
           yCell := snd (meshgrid xs ys);
           preFactor := preFactor c |}.
Proof.
  intros H. destruct (constructPlateEfield_inv _ _ _ _ _ _ H) as (fr & Hfr & ->).
  destruct (constructPlateEfield_frame_inv _ _ _ _ _ _ Hfr)
    as (xs & ys & _ & _ & Hdx & Hdy & Hxs & Hys & HX & HY & _).
  exists xs, ys. rewrite <- Hdx, <- Hdy. repeat split; try assumption.
  unfold close. cbn. now rewrite HX, HY.
Qed.

(** ** Superposition of the two plates *)

(** C5. The field function returned by [constructEfieldParallel] returns,
    component by component, the sum of the field of the plate of density
    [chargeDensity] at [(x, y, z + distance/2)] and of the field of the
    plate of density [-chargeDensity] at [(x, y, z - distance/2)], both
    plates built with the same [Lx], [Ly], [Nx], [Ny]; and the parallel
    constructor raises only what one of the two plate constructors
    raises. *)
Theorem EfieldParallel_superposition
    (g : Globals) (sigma dist Lx Ly : F) (Nx Ny : Z) :
  match constructEfieldParallel g sigma dist Lx Ly Nx Ny with
  | Ok p =>
      exists e1 e2,
        constructPlateEfield g sigma Lx Ly Nx Ny = Ok e1 /\
        constructPlateEfield g (fneg sigma) Lx Ly Nx Ny = Ok e2 /\
        forall x y z,
          EfieldParallel p x y z
          = vadd (vectorize_scalar (Efield e1) x y (fadd z (fdiv dist two)))
                 (vectorize_scalar (Efield e2) x y (fsub z (fdiv dist two)))
  | Raise e =>
      constructPlateEfield g sigma Lx Ly Nx Ny = Raise e \/
      constructPlateEfield g (fneg sigma) Lx Ly Nx Ny = Raise e
  end.
Proof.
  unfold constructEfieldParallel.
  destruct (constructPlateEfield g sigma Lx Ly Nx Ny) as [e1|e] eqn:H1;
    cbn [bind]; [|now left].
  destruct (constructPlateEfield g (fneg sigma) Lx Ly Nx Ny) as [e2|e] eqn:H2;
    cbn [bind]; [|now right].
  exists e1, e2. split; [reflexivity|]. split; [reflexivity|]. intros x y z.
  unfold EfieldParallel, vadd, fst3, snd3, thd3. cbn [Efield1 Efield2 distance].
  destruct (vectorize_scalar (Efield e1) x y _) as [[Ex1 Ey1] Ez1].
  destruct (vectorize_scalar (Efield e2) x y _) as [[Ex2 Ey2] Ez2].
  reflexivity.
Qed.

(** ** The constant eps0 is read at construction only *)

Lemma run_reassign (c : PlateClosure) (x y z : F) (vs : list F) :
  forall g,
    printed (run {| nb_globals := g; nb_Efield := Some c |}
               (map AssignEps0 vs ++ [CallEfield x y z]))
    = Ok [vectorize_scalar (Efield c) x y z].
Proof.
  induction vs as [|v vs IH]; intros g.
  - reflexivity.
  - cbn [map app run exec bind fst snd nb_Efield].
    specialize (IH {| eps0 := v |}). unfold printed in *.
    destruct (run _ (map AssignEps0 vs ++ _)) as [[nb' out]|e];
      cbn [bind fst snd app] in *; [assumption | discriminate].
Qed.

(** C10. A run that builds the field function and calls it prints the same
    field whether or not [eps0] is reassigned, any number of times, between
    the construction and the call; and two constructions that differ only
    in the value of [eps0] build closures that differ only in
    [preFactor]. *)
Theorem Efield_ignores_later_eps0 :
  (forall (nb : Notebook) (sigma Lx Ly : F) (Nx Ny : Z)
          (vs : list F) (x y z : F),
      printed (run nb (AssignEfield sigma Lx Ly Nx Ny
                         :: map AssignEps0 vs ++ [CallEfield x y z]))
      = printed (run nb [AssignEfield sigma Lx Ly Nx Ny; CallEfield x y z]))
  /\
  (forall (g g' : Globals) (sigma Lx Ly : F) (Nx Ny : Z)
          (c c' : PlateClosure),
      constructPlateEfield g sigma Lx Ly Nx Ny = Ok c ->
      constructPlateEfield g' sigma Lx Ly Nx Ny = Ok c' ->
      xCell c = xCell c' /\ yCell c = yCell c').
Proof.
  split.
  - intros nb sigma Lx Ly Nx Ny vs x y z.
    cbn [run exec].
    destruct (constructPlateEfield (nb_globals nb) sigma Lx Ly Nx Ny)
      as [c|e]; [|reflexivity].
    cbn [bind fst snd app nb_Efield].
    pose proof (run_reassign c x y z vs (nb_globals nb)) as H.
    unfold printed in *.
    destruct (run _ (map AssignEps0 vs ++ _)) as [[nb' out]|e];
      cbn [bind fst snd app] in *; [assumption | discriminate].
  - intros g g' sigma Lx Ly Nx Ny c c' H H'.
    destruct (constructPlateEfield_meshgrid _ _ _ _ _ _ H)
      as (xs & ys & Hxs & Hys & ->).
    destruct (constructPlateEfield_meshgrid _ _ _ _ _ _ H')
      as (xs' & ys' & Hxs' & Hys' & ->).
    rewrite Hxs in Hxs'. rewrite Hys in Hys'.
    injection Hxs' as <-. injection Hys' as <-. now split.
Qed.

End Generic.

(** * Calls that may raise *)

Section CallProperties.

Context {F : Type} {A : Arith F} {P : PyFloat F}.

(** A call raises exactly when [z**2] is out of range; otherwise it returns
    the field [Efield] computes. *)
Lemma Efield_call_cases (c : PlateClosure) (x y z : F) :
  Efield_call c x y z
  = if pow2_overflows z then Raise OverflowError else Ok (Efield c x y z).
Proof.
  unfold Efield_call, py_sqr. now destruct (pow2_overflows z).
Qed.

Lemma map_result_Efield_call (c : PlateClosure) (x y : F) (zs : list F) :
  map_result (Efield_call c x y) zs
  = if existsb pow2_overflows zs then Raise OverflowError
    else Ok (map (Efield c x y) zs).
Proof.
  induction zs as [|z zs IH]; [reflexivity|].
  cbn [map_result existsb map]. rewrite Efield_call_cases.
  destruct (pow2_overflows z); cbn [bind orb]; [reflexivity|].
  rewrite IH. now destruct (existsb pow2_overflows zs).
Qed.

Lemma vectorize_call_cases (c : PlateClosure) (x y z0 : F) (zs' : list F) :
  let zs := z0 :: zs' in
  vectorize_call (Efield_call c) x y zs
  = if existsb pow2_overflows zs then Raise OverflowError
    else Ok (map (fun z => fst3 (Efield c x y z)) zs,
             map (fun z => snd3 (Efield c x y z)) zs,
             map (fun z => thd3 (Efield c x y z)) zs).
Proof.
  intros zs. unfold vectorize_call. fold zs.
  change (match zs with
          | [] => Raise ValueError
          | _ :: _ =>
              out <- map_result (Efield_call c x y) zs ;;
              Ok (map fst3 out, map snd3 out, map thd3 out)
          end)
    with (out <- map_result (Efield_call c x y) zs ;;
          Ok (map fst3 out, map snd3 out, map thd3 out)).
  rewrite map_result_Efield_call.
  destruct (existsb pow2_overflows zs); cbn [bind]; [reflexivity|].
  now rewrite !map_map.
Qed.

Lemma existsb_false_of_all (zs : list F) :
  (forall z, In z zs -> pow2_overflows z = false) ->
  existsb pow2_overflows zs = false.
Proof.
  intros H. destruct (existsb pow2_overflows zs) eqn:E; [|reflexivity].
  apply existsb_exists in E. destruct E as (z & Hin & Hz).
  rewrite (H z Hin) in Hz. discriminate.
Qed.

Lemma existsb_true_of_some (zs : list F) :
  (exists z, In z zs /\ pow2_overflows z = true) ->
  existsb pow2_overflows zs = true.
Proof. intros H. now apply existsb_exists. Qed.

(** C8 (amended). For every closure, scalars [x], [y] and array of
    [N >= 1] z values: when no [z_i ** 2] is out of range, the vectorised
    function returns three arrays of length [N], whose entries at each index
    [i] are the three components the scalar call returns at [(x, y, z_i)];
    when some [z_i ** 2] is out of range, the call raises
    [OverflowError]. *)
Theorem vectorize_call_elementwise
    (c : PlateClosure) (x y : F) (zs : list F) :
  (1 <= length zs)%nat ->
  ((forall z, In z zs -> pow2_overflows z = false) ->
   exists Exs Eys Ezs,
     vectorize_call (Efield_call c) x y zs = Ok (Exs, Eys, Ezs) /\
     length Exs = length zs /\
     length Eys = length zs /\
     length Ezs = length zs /\
     forall i zi,
       nth_error zs i = Some zi ->
       exists Ex Ey Ez,
         Efield_call c x y zi = Ok (Ex, Ey, Ez) /\
         nth_error Exs i = Some Ex /\
         nth_error Eys i = Some Ey /\
         nth_error Ezs i = Some Ez) /\
  ((exists z, In z zs /\ pow2_overflows z = true) ->
   vectorize_call (Efield_call c) x y zs = Raise OverflowError).
Proof.
  intros HN. destruct zs as [|z0 zs']; [simpl in HN; lia|].
  set (zs := z0 :: zs'). split.
  - intros Hfin. unfold zs at 1. rewrite vectorize_call_cases. fold zs.
    rewrite (existsb_false_of_all _ Hfin).
    do 3 eexists. split; [reflexivity|].
    rewrite !length_map. do 3 (split; [reflexivity|]).
    intros i zi Hi.
    assert (Hzi : pow2_overflows zi = false).
    { apply Hfin. now apply nth_error_In with i. }
    rewrite Efield_call_cases, Hzi.
    destruct (Efield c x y zi) as [[Ex Ey] Ez] eqn:HE.
    exists Ex, Ey, Ez. split; [reflexivity|].
    rewrite !(map_nth_error _ i zs Hi), HE. now repeat split.
  - intros Hov. unfold zs. rewrite vectorize_call_cases. fold zs.
    now rewrite (existsb_true_of_some _ Hov).
Qed.

End CallProperties.

Lemma vectorize_call_elementwise_witness :
  exists Exs Eys Ezs,
    vectorize_call (Efield_call (A := B64_Arith pow_m32) one_cell_closure)
      (b64_of_Z 1) (b64_of_Z 1) [b64_of_Z 3; b64_of_Z 1; b64_of_Z 2]
    = Ok (Exs, Eys, Ezs) /\
    length Exs = 3%nat /\
    length Eys = 3%nat /\
    length Ezs = 3%nat /\
    forall i zi,
      nth_error [b64_of_Z 3; b64_of_Z 1; b64_of_Z 2] i = Some zi ->
      exists Ex Ey Ez,
        Efield_call (A := B64_Arith pow_m32) one_cell_closure
          (b64_of_Z 1) (b64_of_Z 1) zi = Ok (Ex, Ey, Ez) /\
        nth_error Exs i = Some Ex /\
        nth_error Eys i = Some Ey /\
        nth_error Ezs i = Some Ez.
Proof.
  refine (proj1 (@vectorize_call_elementwise spec_float (B64_Arith pow_m32)
                   B64_PyFloat one_cell_closure (b64_of_Z 1) (b64_of_Z 1)
                   [b64_of_Z 3; b64_of_Z 1; b64_of_Z 2] _) _).
  - simpl. lia.
  - intros z [<-|[<-|[<-|[]]]]; vm_compute; reflexivity.
Defined.

(** C8, as stated, fails: the call raises for an array of no z value, and
    for an array holding a z whose square is out of range. *)
Lemma vectorize_call_raises :
  vectorize_call (Efield_call (A := B64_Arith pow_m32) one_cell_closure)
    (b64_of_Z 1) (b64_of_Z 1) []
  = Raise ValueError
  /\
  vectorize_call (Efield_call (A := B64_Arith pow_m32) one_cell_closure)
    (b64_of_Z 1) (b64_of_Z 1) [b64_of_Z 1; b64_of_Z (10 ^ 200)]
  = Raise OverflowError.
Proof. split; vm_compute; reflexivity. Qed.

(** * Properties in exact real arithmetic *)

Open Scope R_scope.

Module RealModel.

Lemma is_zero_false (v : R) : v <> 0 -> is_zero v = false.
Proof. intros H. cbn. destruct (Req_dec_T v 0); [contradiction | reflexivity]. Qed.

Lemma is_zero_true (v : R) : v = 0 -> is_zero v = true.
Proof. intros H. cbn. destruct (Req_dec_T v 0); [reflexivity | contradiction]. Qed.

Lemma is_zero_false_inv (v : R) : is_zero v = false -> v <> 0.
Proof. cbn. destruct (Req_dec_T v 0); [discriminate | auto]. Qed.

Lemma IZR_neq0 (n : Z) : n <> 0%Z -> IZR n <> 0.
Proof. intros H E. apply H. now apply eq_IZR_R0. Qed.

Lemma four_pi_eps_neq0 (e : R) : e <> 0 -> 4 * PI * e <> 0.
Proof.
  intros H. pose proof PI_RGT_0.
  apply Rmult_integral_contrapositive_currified; [lra | exact H].
Qed.

(** *** Finite sums *)


Lemma fold_left_Rplus (l : list R) (a : R) :
  fold_left Rplus l a = a + Rsum l.
Proof.
  revert a. induction l as [|v l IH]; intros a; simpl; [lra|].
  rewrite IH. lra.
Qed.

Lemma sum_list_Rsum (l : list R) : sum_list l = Rsum l.
Proof. unfold sum_list. rewrite fold_left_Rplus. cbn. lra. Qed.

Lemma Rsum_app (l1 l2 : list R) : Rsum (l1 ++ l2) = Rsum l1 + Rsum l2.
Proof. induction l1 as [|v l1 IH]; simpl; [lra | rewrite IH; lra]. Qed.

Lemma Rsum_rev (l : list R) : Rsum (rev l) = Rsum l.
Proof.
  induction l as [|v l IH]; simpl; [reflexivity|].
  rewrite Rsum_app, IH. simpl. lra.
Qed.

Lemma Rsum_map_ext {X : Type} (f g : X -> R) (l : list X) :
  (forall v, In v l -> f v = g v) -> Rsum (map f l) = Rsum (map g l).
Proof. intros H. f_equal. now apply map_ext_in. Qed.

Lemma Rsum_map_opp {X : Type} (f : X -> R) (l : list X) :
  Rsum (map (fun v => - f v) l) = - Rsum (map f l).
Proof. induction l as [|v l IH]; simpl; [lra | rewrite IH; lra]. Qed.

Lemma Rsum_map_const {X : Type} (a : R) (l : list X) :
  Rsum (map (fun _ => a) l) = INR (length l) * a.
Proof.
  induction l as [|v l IH]; [simpl; lra|].
  cbn [map Rsum fold_right length]. fold (Rsum (map (fun _ => a) l)).
  rewrite IH, S_INR. lra.
Qed.

(** A sum over the cells is a double sum, rows first. *)
Lemma Rsum_cells (f : R * R -> R) (xs ys : list R) :
  Rsum (map f (cells xs ys))
  = Rsum (map (fun y => Rsum (map (fun x => f (x, y)) xs)) ys).
Proof.
  unfold cells. induction ys as [|y ys IH]; simpl; [reflexivity|].
  rewrite map_app, Rsum_app, map_map, IH. reflexivity.
Qed.


(** *** The grid of cell centres *)


Lemma arange_INR (N : Z) : arange N = map INR (seq 0 (Z.to_nat N)).
Proof.
  unfold arange. apply map_ext. intros i. cbn. now rewrite INR_IZR_INZ.
Qed.

Lemma set_last_snoc (l : list R) (v w : R) : set_last (l ++ [v]) w = l ++ [w].
Proof.
  unfold set_last. destruct (l ++ [v]) eqn:E.
  - now destruct l.
  - rewrite <- E. now rewrite removelast_last.
Qed.

Lemma INR_to_nat (N : Z) : (0 <= N)%Z -> INR (Z.to_nat N) = IZR N.
Proof. intros H. rewrite INR_IZR_INZ. now rewrite Z2Nat.id. Qed.

(** [np.linspace] between the first and the last cell centre returns the
    cell centres. *)
Lemma linspace_cell_centers (L : R) (N : Z) :
  (1 <= N)%Z ->
  linspace (- L / 2 + L / IZR N / 2) (L / 2 - L / IZR N / 2) N
  = Ok (cell_centers L N).
Proof.
  intros HN. unfold linspace.
  destruct (Z.ltb_spec N 0); [lia|].
  assert (HN0 : IZR N <> 0) by (apply IZR_neq0; lia).
  rewrite arange_INR. unfold cell_centers.
  destruct (Z.ltb_spec 0 (N - 1)) as [Hdiv|Hdiv].
  - assert (Hd : IZR (N - 1) = IZR N - 1) by now rewrite minus_IZR.
    assert (Hd0 : IZR N - 1 <> 0) by (rewrite <- Hd; apply IZR_neq0; lia).
    destruct (Z.ltb_spec 1 N); [|lia].
    assert (Hpt : forall l,
      map (fun v => fadd v (- L / 2 + L / IZR N / 2))
        (if is_zero (fdiv (fsub (L / 2 - L / IZR N / 2)
                                (- L / 2 + L / IZR N / 2)) (of_Z (N - 1)))
         then map (fun i => fmul (fdiv i (of_Z (N - 1)))
                (fsub (L / 2 - L / IZR N / 2) (- L / 2 + L / IZR N / 2)))
                (map INR l)
         else map (fun i => fmul i
                (fdiv (fsub (L / 2 - L / IZR N / 2)
                            (- L / 2 + L / IZR N / 2)) (of_Z (N - 1))))
                (map INR l))
      = map (center L N) l).
    { intros l. destruct (is_zero _); rewrite !map_map; apply map_ext;
        intros i; unfold center; cbn; rewrite Hd; field; auto. }
    rewrite Hpt. f_equal.
    replace (Z.to_nat N) with (S (Z.to_nat (N - 1))) by lia.
    rewrite seq_S, map_app. cbn [map]. rewrite set_last_snoc.
    do 2 f_equal. unfold center. cbn [Nat.add].
    rewrite INR_to_nat by lia. rewrite Hd. field. auto.
  - assert (N = 1%Z) by lia. subst N.
    destruct (Z.ltb_spec 1 1); [lia|].
    f_equal. change (Z.to_nat 1) with 1%nat. unfold center. cbn.
    f_equal. lra.
Qed.


(** *** What the constructor returns *)

Lemma frame_ok (g : Globals) (sigma Lx Ly : R) (Nx Ny : Z) :
  (1 <= Nx)%Z -> (1 <= Ny)%Z -> eps0 g <> 0 ->
  constructPlateEfield_frame g sigma Lx Ly Nx Ny
  = Ok (plate_frame (eps0 g) sigma Lx Ly Nx Ny).
Proof.
  intros HNx HNy He. unfold constructPlateEfield_frame, truediv.
  rewrite (is_zero_false (v := of_Z Nx)) by (apply IZR_neq0; lia).
  rewrite (is_zero_false (v := of_Z Ny)) by (apply IZR_neq0; lia).
  cbn [bind].
  change (linspace (fadd (fdiv (fneg Lx) two) (fdiv (fdiv Lx (of_Z Nx)) two))
            (fsub (fdiv Lx two) (fdiv (fdiv Lx (of_Z Nx)) two)) Nx)
    with (linspace (- Lx / 2 + Lx / IZR Nx / 2) (Lx / 2 - Lx / IZR Nx / 2) Nx).
  change (linspace (fadd (fdiv (fneg Ly) two) (fdiv (fdiv Ly (of_Z Ny)) two))
            (fsub (fdiv Ly two) (fdiv (fdiv Ly (of_Z Ny)) two)) Ny)
    with (linspace (- Ly / 2 + Ly / IZR Ny / 2) (Ly / 2 - Ly / IZR Ny / 2) Ny).
  rewrite !linspace_cell_centers by assumption. cbn [bind].
  rewrite is_zero_false by (apply (four_pi_eps_neq0 He)).
  reflexivity.
Qed.

Lemma construct_ok (g : Globals) (sigma Lx Ly : R) (Nx Ny : Z) :
  (1 <= Nx)%Z -> (1 <= Ny)%Z -> eps0 g <> 0 ->
  constructPlateEfield g sigma Lx Ly Nx Ny
  = Ok (plate_closure (eps0 g) sigma Lx Ly Nx Ny).
Proof.
  intros HNx HNy He. unfold constructPlateEfield.
  now rewrite frame_ok.
Qed.

(** The field of a constructed plate, as three sums over the cells. *)
Lemma Efield_plate_closure (e sigma Lx Ly : R) (Nx Ny : Z) (x y z : R) :
  let k := preFactor (plate_closure e sigma Lx Ly Nx Ny) in
  let cs := cells (cell_centers Lx Nx) (cell_centers Ly Ny) in
  Efield (plate_closure e sigma Lx Ly Nx Ny) x y z
  = (Rsum (map (cell_dEx k x y z) cs),
     Rsum (map (cell_dEy k x y z) cs),
     Rsum (map (cell_dEz k x y z) cs)).
Proof.
  intros k cs. unfold plate_closure. rewrite Efield_cells.
  now rewrite !sum_list_Rsum.
Qed.


Lemma Rsum_map_plus {X : Type} (f g : X -> R) (l : list X) :
  Rsum (map (fun v => f v + g v) l) = Rsum (map f l) + Rsum (map g l).
Proof. induction l as [|v l IH]; simpl; [lra | rewrite IH; lra]. Qed.

Lemma Rsum_map_zero {X : Type} (l : list X) : Rsum (map (fun _ => 0) l) = 0.
Proof. rewrite Rsum_map_const. lra. Qed.

(** Exchange of the two summations. *)
Lemma Rsum_swap (f : R -> R -> R) (xs ys : list R) :
  Rsum (map (fun y => Rsum (map (fun x => f x y) xs)) ys)
  = Rsum (map (fun x => Rsum (map (fun y => f x y) ys)) xs).
Proof.
  induction ys as [|y ys IH]; cbn [map Rsum fold_right].
  - now rewrite Rsum_map_zero.
  - fold (Rsum (map (fun y => Rsum (map (fun x => f x y) xs)) ys)).
    rewrite IH.
    change (fun x => f x y + fold_right Rplus 0 (map (fun y0 => f x y0) ys))
      with (fun x => f x y + Rsum (map (fun y0 => f x y0) ys)).
    now rewrite Rsum_map_plus.
Qed.

Lemma Rsum_list_prod (f : R * R -> R) (xs ys : list R) :
  Rsum (map f (list_prod xs ys))
  = Rsum (map (fun x => Rsum (map (fun y => f (x, y)) ys)) xs).
Proof.
  induction xs as [|x xs IH]; simpl; [reflexivity|].
  rewrite map_app, Rsum_app, map_map, IH. reflexivity.
Qed.

(** A sum over the cross product does not depend on which side is the
    outer one. *)
Lemma Rsum_cells_list_prod (f : R * R -> R) (xs ys : list R) :
  Rsum (map f (cells xs ys)) = Rsum (map f (list_prod xs ys)).
Proof.
  rewrite Rsum_cells, Rsum_list_prod.
  apply (Rsum_swap (fun x y => f (x, y))).
Qed.

Lemma spec_points_centers (L : R) (N : Z) : spec_points L N = cell_centers L N.
Proof. reflexivity. Qed.

Lemma spec_k_preFactor (e sigma Lx Ly : R) (Nx Ny : Z) :
  spec_k e sigma Lx Ly Nx Ny = preFactor (plate_closure e sigma Lx Ly Nx Ny).
Proof. unfold spec_k, plate_closure, Rdiv. cbn. ring. Qed.

Lemma spec_invR3_cell (x y z : R) (cell : R * R) :
  spec_invR3 x y z (fst cell) (snd cell) = cell_Rinv3 x y z cell.
Proof.
  unfold spec_invR3, cell_Rinv3, cell_r2, exponent, sqr. cbn.
  f_equal; lra.
Qed.

Lemma spec_contribution_cell (k x y z : R) (cell : R * R) :
  spec_contribution k x y z cell
  = (cell_dEx k x y z cell, cell_dEy k x y z cell, cell_dEz k x y z cell).
Proof.
  unfold cell_dEx, cell_dEy, cell_dEz. rewrite <- spec_invR3_cell.
  destruct cell as [xc yc]. reflexivity.
Qed.

(** C1. For every plate with [Nx >= 1], [Ny >= 1] (and a non-zero electric
    constant, without which no evaluator is built), construction succeeds
    and the evaluator returns at every scalar point [(x,y,z)] the
    componentwise sum, over the full grid of cell centres (the [Nx] points
    [-Lx/2 + dx/2 + i*dx] crossed with the [Ny] analogous points in y), of
    the contributions [(k*(x-xc)*invR3, k*(y-yc)*invR3, k*z*invR3)] with
    [invR3 = ((x-xc)^2 + (y-yc)^2 + z^2)^(-3/2)] and the single prefactor
    [k = sigma*dx*dy/(4*pi*eps0)]. *)
Theorem Efield_is_grid_sum
    (g : Globals) (sigma Lx Ly : R) (Nx Ny : Z) :
  (1 <= Nx)%Z -> (1 <= Ny)%Z -> eps0 g <> 0 ->
  exists c,
    constructPlateEfield g sigma Lx Ly Nx Ny = Ok c /\
    forall x y z,
      vectorize_scalar (Efield c) x y z
      = spec_field (eps0 g) sigma Lx Ly Nx Ny x y z.
Proof.
  intros HNx HNy He. exists (plate_closure (eps0 g) sigma Lx Ly Nx Ny).
  split; [now apply construct_ok|].
  intros x y z. unfold vectorize_scalar.
  rewrite Efield_plate_closure. unfold spec_field, spec_grid.
  change (spec_points Lx Nx) with (cell_centers Lx Nx).
  change (spec_points Ly Ny) with (cell_centers Ly Ny).
  rewrite spec_k_preFactor, !map_map.
  rewrite !Rsum_cells_list_prod.
  f_equal; [f_equal|]; apply Rsum_map_ext; intros cell _;
    now rewrite spec_contribution_cell.
Qed.

Lemma Efield_is_grid_sum_witness :
  exists c,
    constructPlateEfield {| eps0 := 1 |} 1 3 3 2 3 = Ok c /\
    forall x y z,
      vectorize_scalar (Efield c) x y z = spec_field 1 1 3 3 2 3 x y z.
Proof.
  apply (@Efield_is_grid_sum {| eps0 := 1 |} 1 3 3 2 3); [lia | lia | cbn; lra].
Defined.

(** *** The charge of the cells *)

Lemma length_cell_centers (L : R) (N : Z) :
  length (cell_centers L N) = Z.to_nat N.
Proof. unfold cell_centers. now rewrite length_map, length_seq. Qed.

(** C4. The charge of a cell computed at construction is
    [chargeDensity*(lengthX/cellsX)*(lengthY/cellsY)], one value for all the
    [cellsX*cellsY] cells of the grid, and the sum of the charges of all the
    cells is [chargeDensity*lengthX*lengthY]. *)
Theorem total_charge_conserved
    (g : Globals) (sigma Lx Ly : R) (Nx Ny : Z) :
  (1 <= Nx)%Z -> (1 <= Ny)%Z -> eps0 g <> 0 ->
  exists fr,
    constructPlateEfield_frame g sigma Lx Ly Nx Ny = Ok fr /\
    cellCharge fr = sigma * (Lx / IZR Nx) * (Ly / IZR Ny) /\
    length (concat (fr_xCell fr)) = Z.to_nat (Nx * Ny) /\
    np_sum (mat_map (fun _ => cellCharge fr) (fr_xCell fr)) = sigma * Lx * Ly.
Proof.
  intros HNx HNy He. exists (plate_frame (eps0 g) sigma Lx Ly Nx Ny).
  split; [now apply frame_ok|].
  assert (HNx0 : IZR Nx <> 0) by (apply IZR_neq0; lia).
  assert (HNy0 : IZR Ny <> 0) by (apply IZR_neq0; lia).
  cbn [plate_frame cellCharge fr_xCell].
  rewrite meshgrid_mat_of. cbn [fst].
  rewrite mat_map_mat_of, np_sum_mat_of, concat_mat_of, length_map.
  rewrite sum_list_Rsum, Rsum_map_const.
  rewrite length_cells, !length_cell_centers.
  split; [ring|]. split; [lia|].
  rewrite mult_INR, !INR_to_nat by lia. now field.
Qed.

Lemma total_charge_conserved_witness :
  exists fr,
    constructPlateEfield_frame {| eps0 := 1 |} 2 3 5 4 7 = Ok fr /\
    cellCharge fr = 2 * (3 / 4) * (5 / 7) /\
    length (concat (fr_xCell fr)) = Z.to_nat (4 * 7) /\
    np_sum (mat_map (fun _ => cellCharge fr) (fr_xCell fr)) = 2 * 3 * 5.
Proof.
  apply (@total_charge_conserved {| eps0 := 1 |} 2 3 5 4 7);
    [lia | lia | cbn; lra].
Defined.


(** *** Which configurations the constructor rejects *)

Lemma linspace_negative (a b : R) (N : Z) :
  (N < 0)%Z -> linspace a b N = Raise ValueError.
Proof. intros H. unfold linspace. now destruct (Z.ltb_spec N 0); [|lia]. Qed.

Lemma four_pi_zero : is_zero (fmul (fmul (of_Z 4) np_pi) 0) = true.
Proof. apply is_zero_true. cbn. lra. Qed.

(** The outcome of a call, case by case. *)
Lemma constructPlateEfield_cases
    (g : Globals) (sigma Lx Ly : R) (Nx Ny : Z) :
  constructPlateEfield g sigma Lx Ly Nx Ny
  = if ((Nx =? 0) || (Ny =? 0))%Z then Raise ZeroDivisionError
    else if ((Nx <? 0) || (Ny <? 0))%Z then Raise ValueError
    else if is_zero (eps0 g) then Raise ZeroDivisionError
    else Ok (plate_closure (eps0 g) sigma Lx Ly Nx Ny).
Proof.
  destruct (Z.eqb_spec Nx 0) as [->|HNx]; cbn [orb].
  { unfold constructPlateEfield, constructPlateEfield_frame, truediv.
    now rewrite (is_zero_true (v := of_Z 0)). }
  destruct (Z.eqb_spec Ny 0) as [->|HNy]; cbn [orb].
  { unfold constructPlateEfield, constructPlateEfield_frame, truediv.
    rewrite (is_zero_false (v := of_Z Nx)) by now apply IZR_neq0.
    now rewrite (is_zero_true (v := of_Z 0)). }
  destruct (Z.ltb_spec Nx 0) as [HxNeg|HxPos]; cbn [orb].
  { unfold constructPlateEfield, constructPlateEfield_frame, truediv.
    rewrite (is_zero_false (v := of_Z Nx)) by now apply IZR_neq0.
    rewrite (is_zero_false (v := of_Z Ny)) by now apply IZR_neq0.
    cbn [bind]. now rewrite linspace_negative. }
  destruct (Z.ltb_spec Ny 0) as [HyNeg|HyPos].
  { unfold constructPlateEfield, constructPlateEfield_frame, truediv.
    rewrite (is_zero_false (v := of_Z Nx)) by now apply IZR_neq0.
    rewrite (is_zero_false (v := of_Z Ny)) by now apply IZR_neq0.
    cbn [bind].
    change (linspace (fadd (fdiv (fneg Lx) two) (fdiv (fdiv Lx (of_Z Nx)) two))
              (fsub (fdiv Lx two) (fdiv (fdiv Lx (of_Z Nx)) two)) Nx)
      with (linspace (- Lx / 2 + Lx / IZR Nx / 2)
              (Lx / 2 - Lx / IZR Nx / 2) Nx).
    rewrite linspace_cell_centers by lia. cbn [bind].
    now rewrite linspace_negative. }
  destruct (is_zero (eps0 g)) eqn:He.
  - assert (He0 : eps0 g = 0).
    { cbn in He. now destruct (Req_dec_T (eps0 g) 0). }
    unfold constructPlateEfield, constructPlateEfield_frame, truediv.
    rewrite (is_zero_false (v := of_Z Nx)) by now apply IZR_neq0.
    rewrite (is_zero_false (v := of_Z Ny)) by now apply IZR_neq0.
    cbn [bind].
    change (linspace (fadd (fdiv (fneg Lx) two) (fdiv (fdiv Lx (of_Z Nx)) two))
              (fsub (fdiv Lx two) (fdiv (fdiv Lx (of_Z Nx)) two)) Nx)
      with (linspace (- Lx / 2 + Lx / IZR Nx / 2)
              (Lx / 2 - Lx / IZR Nx / 2) Nx).
    change (linspace (fadd (fdiv (fneg Ly) two) (fdiv (fdiv Ly (of_Z Ny)) two))
              (fsub (fdiv Ly two) (fdiv (fdiv Ly (of_Z Ny)) two)) Ny)
      with (linspace (- Ly / 2 + Ly / IZR Ny / 2)
              (Ly / 2 - Ly / IZR Ny / 2) Ny).
    rewrite !linspace_cell_centers by lia. cbn [bind].
    rewrite He0. now rewrite four_pi_zero.
  - apply construct_ok; [lia | lia | now apply is_zero_false_inv].
Qed.

(** C2 (amended). Construction raises exactly when [cellsX < 1], or
    [cellsY < 1], or [eps0 = 0]: [ZeroDivisionError] when a cell count or
    [eps0] is zero, [ValueError] when a cell count is negative (and none is
    zero).  No evaluator is returned then.  In every other case, whatever
    the signs of [lengthX], [lengthY] and [eps0], construction succeeds; so
    it does when all the preconditions hold. *)
Theorem constructPlateEfield_rejects
    (g : Globals) (sigma Lx Ly : R) (Nx Ny : Z) :
  let r := constructPlateEfield g sigma Lx Ly Nx Ny in
  ((exists c, r = Ok c) <-> (1 <= Nx)%Z /\ (1 <= Ny)%Z /\ eps0 g <> 0) /\
  (r = Raise ValueError
   <-> Nx <> 0%Z /\ Ny <> 0%Z /\ ((Nx < 0)%Z \/ (Ny < 0)%Z)) /\
  (r = Raise ZeroDivisionError
   <-> Nx = 0%Z \/ Ny = 0%Z \/ ((1 <= Nx)%Z /\ (1 <= Ny)%Z /\ eps0 g = 0)).
Proof.
  intros r. subst r. rewrite constructPlateEfield_cases.
  destruct (Z.eqb_spec Nx 0) as [HNx|HNx]; cbn [orb]; [outcome|].
  destruct (Z.eqb_spec Ny 0) as [HNy|HNy]; cbn [orb]; [outcome|].
  destruct (Z.ltb_spec Nx 0) as [HxNeg|HxPos]; cbn [orb]; [outcome|].
  destruct (Z.ltb_spec Ny 0) as [HyNeg|HyPos]; [outcome|].
  destruct (is_zero (eps0 g)) eqn:He.
  - assert (He0 : eps0 g = 0).
    { cbn in He. now destruct (Req_dec_T (eps0 g) 0). }
    outcome. right; right. repeat split; (lia || assumption).
  - apply is_zero_false_inv in He. outcome. now eexists.
Qed.

(** C2, as stated, fails: a plate of negative length is accepted. *)
Lemma negative_length_accepted :
  -1 <= 0 /\
  constructPlateEfield {| eps0 := 1 |} 1 (-1) 1 1 1
  = Ok (plate_closure 1 1 (-1) 1 1 1).
Proof.
  split; [lra|].
  apply (@construct_ok {| eps0 := 1 |}); [lia | lia | cbn; lra].
Qed.


(** *** Symmetries of the grid and of the field *)

Lemma rev_map_seq {X : Type} (f : nat -> X) (n : nat) :
  rev (map f (seq 0 n)) = map (fun i => f (n - 1 - i)%nat) (seq 0 n).
Proof.
  induction n as [|n IH]; [reflexivity|].
  rewrite seq_S at 1. rewrite map_app, rev_app_distr. cbn [map rev app Nat.add].
  rewrite IH. cbn [seq map]. f_equal; [f_equal; lia|].
  rewrite <- seq_shift, map_map.
  apply map_ext. intros i. f_equal. lia.
Qed.

(** The grid is symmetric about the centre of the plate. *)
Lemma cell_centers_rev (L : R) (N : Z) :
  (1 <= N)%Z -> rev (cell_centers L N) = map Ropp (cell_centers L N).
Proof.
  intros HN. unfold cell_centers. rewrite rev_map_seq, map_map.
  apply map_ext_in. intros i Hi. apply in_seq in Hi.
  assert (HN0 : IZR N <> 0) by (apply IZR_neq0; lia).
  unfold center. rewrite !minus_INR by lia.
  rewrite INR_to_nat by lia. cbn [INR]. now field.
Qed.

Lemma Rsum_map_rev {X : Type} (f : X -> R) (l : list X) :
  Rsum (map f (rev l)) = Rsum (map f l).
Proof. now rewrite map_rev, Rsum_rev. Qed.

(** A sum over a symmetric grid may be taken over the reflected cells. *)
Lemma Rsum_cells_reflect (f : R * R -> R) (xs ys : list R) :
  rev xs = map Ropp xs -> rev ys = map Ropp ys ->
  Rsum (map f (cells xs ys))
  = Rsum (map (fun c => f (- fst c, - snd c)) (cells xs ys)).
Proof.
  intros Hx Hy. rewrite !Rsum_cells. cbn [fst snd].
  rewrite <- (Rsum_map_rev _ ys), Hy, map_map.
  apply Rsum_map_ext. intros y _.
  now rewrite <- (Rsum_map_rev _ xs), Hx, map_map.
Qed.

Lemma cell_Rinv3_reflect (x y z : R) (cell : R * R) :
  cell_Rinv3 (- x) (- y) z (- fst cell, - snd cell) = cell_Rinv3 x y z cell.
Proof.
  unfold cell_Rinv3, cell_r2, sqr. cbn. f_equal. ring.
Qed.

Lemma cell_Rinv3_z_opp (x y z : R) (cell : R * R) :
  cell_Rinv3 x y (- z) cell = cell_Rinv3 x y z cell.
Proof.
  unfold cell_Rinv3, cell_r2, sqr. cbn. f_equal. ring.
Qed.

(** The field at the point reflected through the axis of the plate. *)
Lemma Efield_reflect (e sigma Lx Ly : R) (Nx Ny : Z) (x y z : R) :
  (1 <= Nx)%Z -> (1 <= Ny)%Z ->
  let c := plate_closure e sigma Lx Ly Nx Ny in
  Efield c (- x) (- y) z
  = (- fst3 (Efield c x y z), - snd3 (Efield c x y z), thd3 (Efield c x y z)).
Proof.
  intros HNx HNy c. subst c. rewrite !Efield_plate_closure.
  cbn [fst3 snd3 thd3 fst snd].
  set (k := preFactor _). set (xs := cell_centers Lx Nx).
  set (ys := cell_centers Ly Ny).
  assert (Hx : rev xs = map Ropp xs) by now apply cell_centers_rev.
  assert (Hy : rev ys = map Ropp ys) by now apply cell_centers_rev.
  rewrite (Rsum_cells_reflect (cell_dEx k (- x) (- y) z) _ _ Hx Hy).
  rewrite (Rsum_cells_reflect (cell_dEy k (- x) (- y) z) _ _ Hx Hy).
  rewrite (Rsum_cells_reflect (cell_dEz k (- x) (- y) z) _ _ Hx Hy).
  rewrite <- !Rsum_map_opp.
  f_equal; [f_equal|]; apply Rsum_map_ext; intros cell _;
    unfold cell_dEx, cell_dEy, cell_dEz; rewrite cell_Rinv3_reflect;
    cbn; ring.
Qed.



(** *** The two parallel plates *)

(** Reflection through the plane of the plate reverses [Ez] only. *)
Lemma Efield_z_opp (e sigma Lx Ly : R) (Nx Ny : Z) (x y z : R) :
  let c := plate_closure e sigma Lx Ly Nx Ny in
  Efield c x y (- z)
  = (fst3 (Efield c x y z), snd3 (Efield c x y z), - thd3 (Efield c x y z)).
Proof.
  intros c. subst c. rewrite !Efield_plate_closure.
  cbn [fst3 snd3 thd3 fst snd]. rewrite <- Rsum_map_opp.
  f_equal; [f_equal|]; apply Rsum_map_ext; intros cell _;
    unfold cell_dEx, cell_dEy, cell_dEz; rewrite cell_Rinv3_z_opp;
    cbn; ring.
Qed.

(** The opposite charge density gives the opposite field. *)
Lemma Efield_sigma_opp (e sigma Lx Ly : R) (Nx Ny : Z) (x y z : R) :
  let c := plate_closure e sigma Lx Ly Nx Ny in
  Efield (plate_closure e (- sigma) Lx Ly Nx Ny) x y z
  = (- fst3 (Efield c x y z), - snd3 (Efield c x y z),
     - thd3 (Efield c x y z)).
Proof.
  intros c. subst c. rewrite !Efield_plate_closure.
  cbn [fst3 snd3 thd3 fst snd]. rewrite <- !Rsum_map_opp.
  f_equal; [f_equal|]; apply Rsum_map_ext; intros cell _;
    unfold cell_dEx, cell_dEy, cell_dEz, plate_closure, Rdiv;
    cbn; ring.
Qed.

Lemma parallel_ok (g : Globals) (sigma d Lx Ly : R) (Nx Ny : Z) :
  (1 <= Nx)%Z -> (1 <= Ny)%Z -> eps0 g <> 0 ->
  constructEfieldParallel g sigma d Lx Ly Nx Ny
  = Ok {| Efield1 := plate_closure (eps0 g) sigma Lx Ly Nx Ny;
          Efield2 := plate_closure (eps0 g) (- sigma) Lx Ly Nx Ny;
          distance := d |}.
Proof.
  intros HNx HNy He. unfold constructEfieldParallel.
  rewrite construct_ok by assumption. cbn [bind].
  change (fneg sigma) with (- sigma).
  now rewrite construct_ok by assumption.
Qed.

(** The z component of the field of the two plates, from the field of the
    positive plate alone. *)
Lemma EfieldParallel_thd3 (e sigma d Lx Ly : R) (Nx Ny : Z) (x y z : R) :
  let c := plate_closure e sigma Lx Ly Nx Ny in
  thd3 (EfieldParallel
          {| Efield1 := c;
             Efield2 := plate_closure e (- sigma) Lx Ly Nx Ny;
             distance := d |} x y z)
  = thd3 (Efield c x y (z + d / 2)) - thd3 (Efield c x y (z - d / 2)).
Proof.
  intros c. unfold EfieldParallel, vectorize_scalar.
  cbn [Efield1 Efield2 distance].
  change (fadd z (fdiv d two)) with (z + d / 2).
  change (fsub z (fdiv d two)) with (z - d / 2).
  rewrite Efield_sigma_opp. fold c.
  destruct (Efield c x y (z + d / 2)) as [[Ex1 Ey1] Ez1].
  destruct (Efield c x y (z - d / 2)) as [[Ex2 Ey2] Ez2].
  cbn. lra.
Qed.

(** C3 (amended). On the axis, the z component of the field of the two
    parallel plates is an even function of z about the midplane:
    [Ez(0,0,-z) = Ez(0,0,z)]. *)
Theorem EfieldParallel_Ez_even
    (g : Globals) (sigma d Lx Ly : R) (Nx Ny : Z) :
  (1 <= Nx)%Z -> (1 <= Ny)%Z -> eps0 g <> 0 ->
  exists p,
    constructEfieldParallel g sigma d Lx Ly Nx Ny = Ok p /\
    forall z, thd3 (EfieldParallel p 0 0 (- z)) = thd3 (EfieldParallel p 0 0 z).
Proof.
  intros HNx HNy He. eexists. split; [now apply parallel_ok|].
  intros z. rewrite !EfieldParallel_thd3.
  replace (- z + d / 2) with (- (z - d / 2)) by lra.
  replace (- z - d / 2) with (- (z + d / 2)) by lra.
  rewrite !Efield_z_opp. cbn [thd3 snd]. lra.
Qed.

Lemma EfieldParallel_Ez_even_witness :
  exists p,
    constructEfieldParallel {| eps0 := 1 |} 1 2 1 1 1 1 = Ok p /\
    forall z, thd3 (EfieldParallel p 0 0 (- z)) = thd3 (EfieldParallel p 0 0 z).
Proof.
  apply (@EfieldParallel_Ez_even {| eps0 := 1 |} 1 2 1 1 1 1);
    [lia | lia | cbn; lra].
Defined.

Lemma Rpower_base_1 (a : R) : Rpower 1 a = 1.
Proof. unfold Rpower. now rewrite ln_1, Rmult_0_r, exp_0. Qed.

(** The field of a plate of one cell, on the axis at height [z = 1] or
    [z = -1]. *)
Lemma one_cell_Ez (sigma z : R) :
  z * z = 1 ->
  thd3 (Efield (plate_closure 1 sigma 1 1 1 1) 0 0 z)
  = sigma / (4 * PI) * z.
Proof.
  intros Hz. rewrite Efield_plate_closure. cbn [thd3 snd].
  change (cell_centers 1 1) with [center 1 1 0]. cbn [cells flat_map map app].
  assert (Hc : center 1 1 0 = 0) by (unfold center; cbn; lra).
  rewrite Hc. unfold cell_dEz, cell_Rinv3, cell_r2, sqr, plate_closure.
  cbn.
  replace ((0 - 0) * (0 - 0) + (0 - 0) * (0 - 0) + z * z) with 1 by lra.
  rewrite Rpower_base_1. pose proof PI_RGT_0. field. lra.
Qed.

(** C3, as stated, fails: for two plates of one cell each, at distance 2, the
    field at the midpoint is not minus itself. *)
Lemma EfieldParallel_Ez_not_odd :
  exists p,
    constructEfieldParallel {| eps0 := 1 |} 1 2 1 1 1 1 = Ok p /\
    thd3 (EfieldParallel p 0 0 0) <> - thd3 (EfieldParallel p 0 0 (- 0)).
Proof.
  eexists. split.
  - apply (@parallel_ok {| eps0 := 1 |}); [lia | lia | cbn; lra].
  - cbn [eps0]. rewrite !EfieldParallel_thd3.
    replace (- 0 + 2 / 2) with 1 by lra. replace (- 0 - 2 / 2) with (-1) by lra.
    replace (0 + 2 / 2) with 1 by lra. replace (0 - 2 / 2) with (-1) by lra.
    rewrite !one_cell_Ez by lra.
    pose proof PI_RGT_0 as Hpi.
    assert (0 < 1 / (4 * PI)) by (apply Rdiv_lt_0_compat; lra).
    lra.
Qed.


(** *** Far from the plate *)

Lemma in_cells (xc yc : R) (xs ys : list R) :
  In (xc, yc) (cells xs ys) -> In xc xs /\ In yc ys.
Proof.
  unfold cells. rewrite in_flat_map. intros (y & Hy & H).
  apply in_map_iff in H. destruct H as (x & [= <- <-] & Hx). now split.
Qed.

(** A cell centre is no farther from the middle than half the side. *)
Lemma cell_center_bound (L : R) (N : Z) (xc : R) :
  In xc (cell_centers L N) -> xc * xc <= L * L / 4.
Proof.
  unfold cell_centers. rewrite in_map_iff. intros (i & <- & Hi).
  apply in_seq in Hi. destruct Hi as [_ Hi]. cbn in Hi.
  assert (HN : (1 <= N)%Z) by lia.
  assert (HNpos : 0 < IZR N) by (apply IZR_lt; lia).
  assert (Hi' : INR i + 1 <= IZR N).
  { rewrite <- (INR_to_nat (N := N)) by lia. rewrite <- S_INR.
    apply le_INR. lia. }
  pose proof (pos_INR i) as Hi0.
  set (t := - / 2 + / IZR N / 2 + INR i * / IZR N).
  assert (Ht : center L N i = L * t) by (unfold center, t; field; lra).
  assert (Hinv : 0 < / IZR N) by now apply Rinv_0_lt_compat.
  assert (Hone : IZR N * / IZR N = 1) by (field; lra).
  assert (Hlo : - / 2 <= t) by (unfold t; nra).
  assert (Hhi : t <= / 2).
  { unfold t. assert (INR i * / IZR N + / IZR N <= 1) by nra. lra. }
  rewrite Ht. assert (t * t <= / 4) by nra.
  assert (0 <= L * L) by nra. nra.
Qed.

Lemma Rpower_neg32_sq (z : R) :
  z <> 0 -> Rpower (z * z) (- 3 / 2) = / Rabs z ^ 3.
Proof.
  intros Hz. assert (Ha : 0 < Rabs z) by now apply Rabs_pos_lt.
  replace (z * z) with (Rpower (Rabs z) (INR 2)).
  2:{ rewrite Rpower_pow by assumption. cbn [pow]. rewrite Rmult_1_r.
      unfold Rabs. destruct (Rcase_abs z); ring. }
  rewrite Rpower_mult.
  replace (INR 2 * (- 3 / 2)) with (- INR 3) by (cbn; lra).
  now rewrite Rpower_Ropp, Rpower_pow.
Qed.

(** The factor [r2^(-3/2)] of a cell at squared distance [s] from the axis,
    seen from height [z]. *)
Lemma Rinv3_bounds (z s : R) :
  z <> 0 -> 0 <= s ->
  (1 - 2 * s / (z * z)) * / Rabs z ^ 3 <= Rpower (s + z * z) (- 3 / 2)
  /\ Rpower (s + z * z) (- 3 / 2) <= / Rabs z ^ 3.
Proof.
  intros Hz Hs.
  assert (Hzz : 0 < z * z) by nra.
  assert (Ha : 0 < / Rabs z ^ 3).
  { apply Rinv_0_lt_compat, pow_lt. now apply Rabs_pos_lt. }
  set (u := s / (z * z)).
  assert (Hu : 0 <= u) by (unfold u; apply Rle_mult_inv_pos; lra).
  assert (Hsu : s + z * z = z * z * (1 + u)) by (unfold u; field; lra).
  rewrite Hsu, <- Rpower_mult_distr by lra.
  rewrite Rpower_neg32_sq by assumption.
  replace (2 * s / (z * z)) with (2 * u) by (unfold u; field; lra).
  assert (Hlo : 1 - 2 * u <= Rpower (1 + u) (- 3 / 2)).
  { apply Rle_trans with (Rpower (1 + u) (- INR 2)).
    - rewrite Rpower_Ropp, Rpower_pow by lra.
      assert (Hp : 0 < (1 + u) ^ 2) by (apply pow_lt; lra).
      apply Rmult_le_reg_r with ((1 + u) ^ 2); [assumption|].
      rewrite Rinv_l by lra. cbn [pow]. nra.
    - apply Rle_Rpower; [lra | cbn; lra]. }
  assert (Hhi : Rpower (1 + u) (- 3 / 2) <= 1).
  { apply Rle_trans with (Rpower (1 + u) 0).
    - apply Rle_Rpower; lra.
    - rewrite Rpower_O; lra. }
  split; nra.
Qed.


Lemma Rsum_abs_diff_bound {X : Type} (f h : X -> R) (l : list X) (b : R) :
  (forall v, In v l -> Rabs (f v - h v) <= b) ->
  Rabs (Rsum (map f l) - Rsum (map h l)) <= INR (length l) * b.
Proof.
  induction l as [|v l IH]; intros H.
  - cbn. rewrite Rminus_diag, Rabs_R0. lra.
  - cbn [map Rsum fold_right length]. rewrite S_INR.
    fold (Rsum (map f l)). fold (Rsum (map h l)).
    replace (f v + Rsum (map f l) - (h v + Rsum (map h l)))
      with ((f v - h v) + (Rsum (map f l) - Rsum (map h l))) by ring.
    eapply Rle_trans; [apply Rabs_triang|].
    assert (Rabs (f v - h v) <= b) by (apply H; now left).
    assert (Rabs (Rsum (map f l) - Rsum (map h l)) <= INR (length l) * b)
      by (apply IH; intros w Hw; apply H; now right).
    lra.
Qed.

(** On the axis, at height [z], the z component of the field of a plate is
    the field of a point charge of the same total charge, up to the
    relative error [(Lx^2 + Ly^2) / (2 z^2)]. *)
Lemma Ez_far_field (e sigma Lx Ly : R) (Nx Ny : Z) (z : R) :
  (1 <= Nx)%Z -> (1 <= Ny)%Z -> z <> 0 ->
  let c := plate_closure e sigma Lx Ly Nx Ny in
  Rabs (thd3 (Efield c 0 0 z) - point_charge_Ez e (sigma * Lx * Ly) z)
  <= (Lx * Lx + Ly * Ly) / (2 * (z * z))
     * Rabs (point_charge_Ez e (sigma * Lx * Ly) z).
Proof.
  intros HNx HNy Hz c. subst c. rewrite Efield_plate_closure.
  cbn [thd3 snd].
  set (k := preFactor _). set (cs := cells _ _).
  set (a := / Rabs z ^ 3). set (delta := (Lx * Lx + Ly * Ly) / (2 * (z * z))).
  assert (Hzz : 0 < z * z) by nra.
  assert (Ha : 0 < a).
  { apply Rinv_0_lt_compat, pow_lt. now apply Rabs_pos_lt. }
  assert (HNx0 : IZR Nx <> 0) by (apply IZR_neq0; lia).
  assert (HNy0 : IZR Ny <> 0) by (apply IZR_neq0; lia).
  assert (HEp : point_charge_Ez e (sigma * Lx * Ly) z
                = Rsum (map (fun _ => k * z * a) cs)).
  { rewrite Rsum_map_const. unfold cs.
    rewrite length_cells, !length_cell_centers, mult_INR, !INR_to_nat by lia.
    unfold point_charge_Ez, k, plate_closure, a, Rdiv. cbn [preFactor].
    set (q := / (4 * PI * e)). set (a' := / Rabs z ^ 3). now field. }
  rewrite HEp at 1.
  eapply Rle_trans.
  { apply Rsum_abs_diff_bound with (b := Rabs (k * z) * (delta * a)).
    intros [xc yc] Hin. apply in_cells in Hin. destruct Hin as [Hx Hy].
    apply cell_center_bound in Hx. apply cell_center_bound in Hy.
    unfold cell_dEz, cell_Rinv3, cell_r2, sqr, exponent.
    cbn [fmul fadd fsub fdiv np_power of_Z R_Arith fst snd].
    replace ((0 - xc) * (0 - xc) + (0 - yc) * (0 - yc) + z * z)
      with ((xc * xc + yc * yc) + z * z) by ring.
    assert (Hs : 0 <= xc * xc + yc * yc) by nra.
    destruct (Rinv3_bounds (z := z) (s := xc * xc + yc * yc) Hz Hs)
      as [Hlo Hhi].
    fold a in Hlo, Hhi.
    set (w := Rpower (xc * xc + yc * yc + z * z) (-3 / 2)) in *.
    replace (k * z * w - k * z * a) with ((k * z) * (w - a)) by ring.
    rewrite Rabs_mult. apply Rmult_le_compat_l; [apply Rabs_pos|].
    assert (Hd : 2 * (xc * xc + yc * yc) / (z * z) <= delta).
    { unfold delta, Rdiv.
      replace (/ (2 * (z * z))) with (/ 2 * / (z * z)) by (field; lra).
      assert (0 < / (z * z)) by now apply Rinv_0_lt_compat.
      nra. }
    apply Rabs_le. split; nra. }
  rewrite HEp, Rsum_map_const.
  rewrite !Rabs_mult.
  rewrite (Rabs_pos_eq (INR (length cs))) by apply pos_INR.
  rewrite (Rabs_pos_eq a) by lra.
  rewrite <- Rabs_mult. apply Req_le. ring.
Qed.

(** On the axis the field has no x and no y component. *)
Lemma Efield_on_axis (e sigma Lx Ly : R) (Nx Ny : Z) (z : R) :
  (1 <= Nx)%Z -> (1 <= Ny)%Z ->
  let c := plate_closure e sigma Lx Ly Nx Ny in
  fst3 (Efield c 0 0 z) = 0 /\ snd3 (Efield c 0 0 z) = 0.
Proof.
  intros HNx HNy c.
  pose proof (@Efield_reflect e sigma Lx Ly Nx Ny 0 0 z HNx HNy) as H.
  cbn zeta in H. fold c in H. rewrite Ropp_0 in H.
  destruct (Efield c 0 0 z) as [[Ex Ey] Ez]. cbn in *.
  injection H as H1 H2. split; lra.
Qed.

(** C9. For the plate of density 1, sides 3 and 100 by 100 cells, with the
    physical value of the electric constant, the field at [(0,0,100)] has no
    x and no y component and its z component is within the relative
    tolerance [1e-3] of the field [Q/(4 pi eps0) * 100/100^3] of the point
    charge [Q = 9].  For every plate and every relative tolerance, the field
    on the axis is within this tolerance of the field of the point charge of
    the same total charge at all sufficiently large heights. *)
Theorem far_field_convergence :
  (exists c,
     constructPlateEfield {| eps0 := eps0_SI |} 1 3 3 100 100 = Ok c /\
     forall Ex Ey Ez,
       vectorize_scalar (Efield c) 0 0 100 = (Ex, Ey, Ez) ->
       Ex = 0 /\ Ey = 0 /\
       Rabs (Ez - 9 / (4 * PI * eps0_SI) * (100 / 100 ^ 3))
       <= 1 / 1000 * Rabs (9 / (4 * PI * eps0_SI) * (100 / 100 ^ 3)))
  /\
  (forall (g : Globals) (sigma Lx Ly : R) (Nx Ny : Z),
     (1 <= Nx)%Z -> (1 <= Ny)%Z -> eps0 g <> 0 ->
     exists c,
       constructPlateEfield g sigma Lx Ly Nx Ny = Ok c /\
       forall tol, 0 < tol ->
         exists z0, forall z Ex Ey Ez,
           z0 <= z ->
           vectorize_scalar (Efield c) 0 0 z = (Ex, Ey, Ez) ->
           Ex = 0 /\ Ey = 0 /\
           Rabs (Ez - point_charge_Ez (eps0 g) (sigma * Lx * Ly) z)
           <= tol * Rabs (point_charge_Ez (eps0 g) (sigma * Lx * Ly) z)).
Proof.
  split.
  - exists (plate_closure eps0_SI 1 3 3 100 100). split.
    + apply (@construct_ok {| eps0 := eps0_SI |}); [lia | lia |].
      cbn. unfold eps0_SI. lra.
    + intros Ex Ey Ez H. unfold vectorize_scalar in H.
      destruct (@Efield_on_axis eps0_SI 1 3 3 100 100 100) as [Hx Hy];
        [lia | lia |].
      assert (H100 : (100 : R) <> 0) by lra.
      pose proof (@Ez_far_field eps0_SI 1 3 3 100 100 100
                    ltac:(lia) ltac:(lia) H100) as Hz.
      cbn zeta in Hx, Hy, Hz. rewrite H in Hx, Hy, Hz. cbn in Hx, Hy, Hz.
      split; [assumption|]. split; [assumption|].
      assert (HE : point_charge_Ez eps0_SI (1 * 3 * 3) 100
                   = 9 / (4 * PI * eps0_SI) * (100 / 100 ^ 3)).
      { unfold point_charge_Ez. rewrite (Rabs_pos_eq 100) by lra.
        unfold Rdiv. ring. }
      rewrite HE in Hz.
      eapply Rle_trans; [exact Hz|].
      apply Rmult_le_compat_r; [apply Rabs_pos | lra].
  - intros g sigma Lx Ly Nx Ny HNx HNy He.
    exists (plate_closure (eps0 g) sigma Lx Ly Nx Ny).
    split; [now apply construct_ok|].
    intros tol Htol.
    set (B := (Lx * Lx + Ly * Ly) / (2 * tol)).
    assert (HB : 0 <= B).
    { unfold B. apply Rle_mult_inv_pos; nra. }
    exists (B + 1). intros z Ex Ey Ez Hz H. unfold vectorize_scalar in H.
    assert (Hz0 : z <> 0) by lra.
    destruct (@Efield_on_axis (eps0 g) sigma Lx Ly Nx Ny z HNx HNy)
      as [Hx Hy].
    pose proof (@Ez_far_field (eps0 g) sigma Lx Ly Nx Ny z HNx HNy Hz0) as HE.
    cbn zeta in Hx, Hy, HE. rewrite H in Hx, Hy, HE. cbn in Hx, Hy, HE.
    split; [assumption|]. split; [assumption|].
    eapply Rle_trans; [exact HE|].
    apply Rmult_le_compat_r; [apply Rabs_pos|].
    assert (Hzz : B < z * z) by nra.
    apply Rmult_le_reg_r with (2 * (z * z)); [nra|].
    unfold Rdiv. rewrite Rmult_assoc, Rinv_l by nra.
    assert (HBt : Lx * Lx + Ly * Ly = B * (2 * tol))
      by (unfold B; field; lra).
    rewrite Rmult_1_r, HBt. nra.
Qed.

End RealModel.

Close Scope R_scope.

(** * Properties in binary64 arithmetic *)

Module FloatModel.

(** The model computes: [np.linspace(-1, 1, 3)] is [[-1., 0., 1.]]. *)
Example linspace_3 :
  linspace (A := B64_Arith pow_m32) (b64_of_Z (-1)) (b64_of_Z 1) 3
  = Ok [b64_of_Z (-1); b64_of_Z 0; b64_of_Z 1].
Proof. vm_compute. reflexivity. Qed.

(** A negative number of samples is refused. *)
Example linspace_negative_num :
  linspace (A := B64_Arith pow_m32) (b64_of_Z 0) (b64_of_Z 1) (-1)
  = Raise ValueError.
Proof. reflexivity. Qed.

(** A plate cut into zero cells: [Lx/Nx] raises. *)
Example zero_cells_raise :
  constructPlateEfield (A := B64_Arith pow_m32) {| eps0 := b64_of_Z 1 |}
    (b64_of_Z 1) (b64_of_Z 3) (b64_of_Z 3) 0 100
  = Raise ZeroDivisionError.
Proof. reflexivity. Qed.

(** On its own cell centre, the field of the one-cell plate is NaN. *)
Example one_cell_field_at_center :
  Efield (A := B64_Arith pow_m32) one_cell_closure
    (b64_of_Z 0) (b64_of_Z 0) (b64_of_Z 0)
  = (S754_nan, S754_nan, S754_nan).
Proof. vm_compute. reflexivity. Qed.

Section Singularity.

(** The power function of the platform.  At a zero base and the exponent
    [-3/2] it returns plus infinity, as C's [pow] does for a negative
    exponent that is not an odd integer. *)
Variable pow : spec_float -> spec_float -> spec_float.
Hypothesis pow_zero : forall s, pow (S754_zero s) b64_exponent = S754_infinity false.

Lemma nonfinite_mul_inf (a : spec_float) (s : bool) :
  nonfinite (fmul (Arith := B64_Arith pow) a (S754_infinity s)) = true.
Proof. now destruct a. Qed.

Lemma nonfinite_add_l (a b : spec_float) :
  nonfinite a = true -> nonfinite (fadd (Arith := B64_Arith pow) a b) = true.
Proof.
  destruct a as [| sa | |]; try discriminate; intros _.
  - destruct b as [| sb | |]; try reflexivity. now destruct sa, sb.
  - reflexivity.
Qed.

Lemma nonfinite_add_r (a b : spec_float) :
  nonfinite b = true -> nonfinite (fadd (Arith := B64_Arith pow) a b) = true.
Proof.
  destruct b as [| sb | |]; try discriminate; intros _.
  - destruct a as [| sa | |]; try reflexivity. now destruct sa, sb.
  - now destruct a.
Qed.

(** Once the running sum is infinite or NaN, it stays so. *)
Lemma fold_left_nonfinite_acc (l : list spec_float) (acc : spec_float) :
  nonfinite acc = true ->
  nonfinite (fold_left (fadd (Arith := B64_Arith pow)) l acc) = true.
Proof.
  revert acc. induction l as [|v l IH]; intros acc H; [assumption|].
  cbn [fold_left]. apply IH. now apply nonfinite_add_l.
Qed.

Lemma fold_left_nonfinite (l : list spec_float) (acc v : spec_float) :
  In v l -> nonfinite v = true ->
  nonfinite (fold_left (fadd (Arith := B64_Arith pow)) l acc) = true.
Proof.
  revert acc. induction l as [|w l IH]; intros acc Hin Hv; [contradiction|].
  cbn [fold_left]. destruct Hin as [->|Hin].
  - apply fold_left_nonfinite_acc. now apply nonfinite_add_r.
  - now apply IH.
Qed.

Lemma sum_list_nonfinite {X : Type} (f : X -> spec_float) (l : list X) (v : X) :
  In v l -> nonfinite (f v) = true ->
  nonfinite (sum_list (A := B64_Arith pow) (map f l)) = true.
Proof.
  intros Hin Hv. unfold sum_list.
  apply fold_left_nonfinite with (v := f v); [now apply in_map | assumption].
Qed.

(** Where the squared distance is zero, the factor [r2^(-3/2)] is plus
    infinity. *)
Lemma cell_Rinv3_singular (x y z : spec_float) (cell : spec_float * spec_float) :
  is_zero (Arith := B64_Arith pow) (cell_r2 (A := B64_Arith pow) x y z cell) = true ->
  cell_Rinv3 (A := B64_Arith pow) x y z cell = S754_infinity false.
Proof.
  unfold cell_Rinv3. intros H.
  destruct (cell_r2 x y z cell) as [s| | |]; try discriminate.
  apply pow_zero.
Qed.

(** C6. For every constructed evaluator and every query point whose squared
    distance to some cell centre evaluates to zero, evaluation returns a
    value, and each of its three components is an infinity or a NaN. *)
Theorem Efield_singular_nonfinite
    (g : Globals) (sigma Lx Ly : spec_float) (Nx Ny : Z)
    (c : PlateClosure) (cell : spec_float * spec_float)
    (x y z : spec_float) :
  constructPlateEfield (A := B64_Arith pow) g sigma Lx Ly Nx Ny = Ok c ->
  In cell (closure_cells c) ->
  is_zero (Arith := B64_Arith pow) (cell_r2 (A := B64_Arith pow) x y z cell) = true ->
  exists Ex Ey Ez,
    vectorize_scalar (Efield (A := B64_Arith pow) c) x y z = (Ex, Ey, Ez) /\
    nonfinite Ex = true /\ nonfinite Ey = true /\ nonfinite Ez = true.
Proof.
  intros Hc Hin Hr2.
  destruct (constructPlateEfield_meshgrid _ _ _ _ _ _ Hc)
    as (xs & ys & _ & _ & Heq).
  rewrite Heq in Hin |- *. rewrite closure_cells_meshgrid in Hin.
  unfold vectorize_scalar. rewrite Efield_cells.
  do 3 eexists. split; [reflexivity|].
  pose proof (cell_Rinv3_singular _ _ _ _ Hr2) as Hinf.
  repeat split; apply sum_list_nonfinite with (v := cell); try assumption;
    unfold cell_dEx, cell_dEy, cell_dEz; rewrite Hinf;
    apply nonfinite_mul_inf.
Qed.

End Singularity.

Lemma pow_m32_zero (s : bool) :
  pow_m32 (S754_zero s) b64_exponent = S754_infinity false.
Proof. now destruct s. Qed.

Lemma Efield_singular_nonfinite_witness :
  exists Ex Ey Ez,
    vectorize_scalar (Efield (A := B64_Arith pow_m32) one_cell_closure)
      (b64_of_Z 0) (b64_of_Z 0) (b64_of_Z 0) = (Ex, Ey, Ez) /\
    nonfinite Ex = true /\ nonfinite Ey = true /\ nonfinite Ez = true.
Proof.
  apply (@Efield_singular_nonfinite pow_m32 pow_m32_zero
           {| eps0 := b64_of_Z 1 |} (b64_of_Z 1) (b64_of_Z 1) (b64_of_Z 1) 1 1
           one_cell_closure (S754_zero false, S754_zero false)).
  - vm_compute. reflexivity.
  - vm_compute. now left.
  - vm_compute. reflexivity.
Defined.

(** A point that coincides with a cell centre of finite coordinates, in the
    plane of the plate, is at squared distance zero from it. *)
Lemma cell_r2_at_center (pow : spec_float -> spec_float -> spec_float)
    (xc yc z : spec_float) :
  nonfinite xc = false -> nonfinite yc = false -> b64_is_zero z = true ->
  is_zero (Arith := B64_Arith pow)
    (cell_r2 (A := B64_Arith pow) xc yc z (xc, yc)) = true.
Proof.
  intros Hx Hy Hz.
  assert (Hsub : forall v, nonfinite v = false ->
                 SFsub prec emax v v = S754_zero false).
  { intros [s|s| |s m e]; try discriminate; intros _.
    - now destruct s.
    - cbn. now rewrite Z.sub_diag. }
  unfold cell_r2, sqr. cbn [fst snd fsub fmul fadd is_zero B64_Arith].
  rewrite (Hsub _ Hx), (Hsub _ Hy).
  destruct z as [s| | |]; try discriminate. now destruct s.
Qed.

End FloatModel.

(** * Further properties of the grid and of the array calls *)

Section GenericExtras.

Context {F : Type} {A : Arith F}.

Lemma length_set_last (y : list F) (stop : F) :
  length (set_last y stop) = length y.
Proof.
  destruct y as [|v y]; [reflexivity|].
  unfold set_last.
  rewrite length_app, removelast_firstn_len, length_firstn.
  cbn [length]. lia.
Qed.

(** [np.linspace] returns as many samples as it is asked for. *)
Lemma length_linspace (start stop : F) (num : Z) (l : list F) :
  linspace start stop num = Ok l -> length l = Z.to_nat num.
Proof.
  unfold linspace. destruct (num <? 0)%Z; [discriminate|].
  intros [= <-].
  assert (Hlen : forall f : list F -> list F,
             (forall u, length (f u) = length u) ->
             length (f (arange num)) = Z.to_nat num).
  { intros f Hf. rewrite Hf. unfold arange.
    now rewrite length_map, length_seq. }
  destruct (1 <? num)%Z; rewrite ?length_set_last, length_map;
    destruct (0 <? num - 1)%Z; try destruct (is_zero _);
    apply (Hlen (map _)); intros u; apply length_map.
Qed.

(** X1. The two matrices of a constructed closure have [Ny] rows of [Nx]
    entries each, so that the grid has [Nx * Ny] cells, whatever the
    arithmetic. *)
Theorem grid_shape
    (g : Globals) (sigma Lx Ly : F) (Nx Ny : Z) (c : PlateClosure) :
  constructPlateEfield g sigma Lx Ly Nx Ny = Ok c ->
  length (xCell c) = Z.to_nat Ny /\
  length (yCell c) = Z.to_nat Ny /\
  (forall row, In row (xCell c) -> length row = Z.to_nat Nx) /\
  (forall row, In row (yCell c) -> length row = Z.to_nat Nx) /\
  length (closure_cells c) = (Z.to_nat Ny * Z.to_nat Nx)%nat.
Proof.
  intros H.
  destruct (constructPlateEfield_meshgrid _ _ _ _ _ _ H)
    as (xs & ys & Hxs & Hys & ->).
  apply length_linspace in Hxs. apply length_linspace in Hys.
  rewrite closure_cells_meshgrid, length_cells. cbn [xCell yCell].
  unfold meshgrid. cbn [fst snd]. rewrite !length_map.
  repeat split; try congruence.
  - intros row Hrow. apply in_map_iff in Hrow.
    destruct Hrow as (y & <- & _). assumption.
  - intros row Hrow. apply in_map_iff in Hrow.
    destruct Hrow as (y & <- & _). now rewrite length_map.
Qed.

Lemma EfieldParallel_vadd (p : ParallelClosure) (x y z : F) :
  EfieldParallel p x y z
  = vadd (Efield (Efield1 p) x y (fadd z (fdiv (distance p) two)))
         (Efield (Efield2 p) x y (fsub z (fdiv (distance p) two))).
Proof.
  unfold EfieldParallel, vectorize_scalar, vadd, fst3, snd3, thd3.
  destruct (Efield (Efield1 p) x y _) as [[Ex1 Ey1] Ez1].
  destruct (Efield (Efield2 p) x y _) as [[Ex2 Ey2] Ez2].
  reflexivity.
Qed.

Lemma zip_with_map_gen {X : Type} (f : F -> F -> F) (h1 h2 : X -> F)
    (l : list X) :
  zip_with f (map h1 l) (map h2 l) = map (fun v => f (h1 v) (h2 v)) l.
Proof. induction l as [|v l IH]; simpl; [reflexivity | now rewrite IH]. Qed.

Lemma constructEfieldParallel_inv g sigma dist Lx Ly Nx Ny p :
  constructEfieldParallel g sigma dist Lx Ly Nx Ny = Ok p ->
  constructPlateEfield g sigma Lx Ly Nx Ny = Ok (Efield1 p) /\
  constructPlateEfield g (fneg sigma) Lx Ly Nx Ny = Ok (Efield2 p) /\
  distance p = dist.
Proof.
  unfold constructEfieldParallel.
  destruct (constructPlateEfield g sigma _ _ _ _) as [e1|]; [|discriminate].
  destruct (constructPlateEfield g (fneg sigma) _ _ _ _) as [e2|];
    [|discriminate].
  intros [= <-]. now repeat split.
Qed.

End GenericExtras.

Section ParallelCalls.

Context {F : Type} {A : Arith F} {P : PyFloat F}.

Lemma existsb_map {X Y : Type} (f : Y -> bool) (h : X -> Y) (l : list X) :
  existsb f (map h l) = existsb (fun v => f (h v)) l.
Proof. induction l as [|v l IH]; cbn; [reflexivity | now rewrite IH]. Qed.

Lemma existsb_or {X : Type} (f h : X -> bool) (l : list X) :
  existsb (fun v => f v || h v) l = existsb f l || existsb h l.
Proof.
  induction l as [|v l IH]; cbn; [reflexivity|]. rewrite IH.
  destruct (f v), (h v), (existsb f l), (existsb h l); reflexivity.
Qed.

(** A scalar call of the two plates raises exactly when one of the two
    shifted heights has a square out of range. *)
Lemma EfieldParallel_call_cases (p : ParallelClosure) (x y z : F) :
  EfieldParallel_call p x y z
  = if shifted_overflows p z then Raise OverflowError
    else Ok (EfieldParallel p x y z).
Proof.
  unfold EfieldParallel_call, shifted_overflows, EfieldParallel,
    vectorize_scalar.
  rewrite !Efield_call_cases.
  destruct (pow2_overflows (fadd z (fdiv (distance p) two)));
    cbn [bind orb]; [reflexivity|].
  destruct (pow2_overflows (fsub z (fdiv (distance p) two)));
    cbn [bind orb].
  - now destruct (Efield (Efield1 p) x y (fadd z (fdiv (distance p) two)))
      as [[Ex1 Ey1] Ez1].
  - destruct (Efield (Efield1 p) x y (fadd z (fdiv (distance p) two)))
      as [[Ex1 Ey1] Ez1].
    now destruct (Efield (Efield2 p) x y (fsub z (fdiv (distance p) two)))
      as [[Ex2 Ey2] Ez2].
Qed.

Lemma EfieldParallel_call_z_cases
    (p : ParallelClosure) (x y z0 : F) (zs' : list F) :
  let zs := z0 :: zs' in
  EfieldParallel_call_z p x y zs
  = if existsb (shifted_overflows p) zs then Raise OverflowError
    else Ok (map (fun z => fst3 (EfieldParallel p x y z)) zs,
             map (fun z => snd3 (EfieldParallel p x y z)) zs,
             map (fun z => thd3 (EfieldParallel p x y z)) zs).
Proof.
  intros zs. unfold EfieldParallel_call_z. subst zs. cbn [map].
  rewrite !vectorize_call_cases.
  change (fadd z0 (fdiv (distance p) two)
            :: map (fun z => fadd z (fdiv (distance p) two)) zs')
    with (map (fun z => fadd z (fdiv (distance p) two)) (z0 :: zs')).
  change (fsub z0 (fdiv (distance p) two)
            :: map (fun z => fsub z (fdiv (distance p) two)) zs')
    with (map (fun z => fsub z (fdiv (distance p) two)) (z0 :: zs')).
  set (zs := z0 :: zs').
  unfold shifted_overflows. rewrite existsb_or, !existsb_map.
  destruct (existsb
              (fun v => pow2_overflows (fadd v (fdiv (distance p) two))) zs);
    cbn [bind orb]; [reflexivity|].
  destruct (existsb
              (fun v => pow2_overflows (fsub v (fdiv (distance p) two))) zs);
    cbn [bind orb]; [reflexivity|].
  rewrite !map_map, !zip_with_map_gen.
  reflexivity.
Qed.

(** X2. Called with an array of z values, the function returned by
    [constructEfieldParallel] raises [ValueError] when the array is empty.
    On a non-empty array it raises [OverflowError] when the square of some
    shifted height [z_i + distance/2] or [z_i - distance/2] is out of range;
    otherwise it returns three arrays of the length of the input, whose
    entries at index [i] are the three components of the scalar call at
    [(x, y, z_i)]. *)
Theorem EfieldParallel_call_z_elementwise
    (p : ParallelClosure) (x y : F) :
  EfieldParallel_call_z p x y [] = Raise ValueError /\
  forall z0 zs',
    let zs := z0 :: zs' in
    ((forall z, In z zs -> shifted_overflows p z = false) ->
     exists Exs Eys Ezs,
       EfieldParallel_call_z p x y zs = Ok (Exs, Eys, Ezs) /\
       length Exs = length zs /\
       length Eys = length zs /\
       length Ezs = length zs /\
       forall i zi,
         nth_error zs i = Some zi ->
         exists Ex Ey Ez,
           EfieldParallel_call p x y zi = Ok (Ex, Ey, Ez) /\
           nth_error Exs i = Some Ex /\
           nth_error Eys i = Some Ey /\
           nth_error Ezs i = Some Ez) /\
    ((exists z, In z zs /\ shifted_overflows p z = true) ->
     EfieldParallel_call_z p x y zs = Raise OverflowError).
Proof.
  split; [reflexivity|].
  intros z0 zs' zs. split.
  - intros Hfin. unfold zs at 1. rewrite EfieldParallel_call_z_cases. fold zs.
    assert (Hall : existsb (shifted_overflows p) zs = false).
    { destruct (existsb (shifted_overflows p) zs) eqn:E; [|reflexivity].
      apply existsb_exists in E. destruct E as (z & Hin & Hz).
      rewrite (Hfin z Hin) in Hz. discriminate. }
    rewrite Hall. do 3 eexists. split; [reflexivity|].
    rewrite !length_map. do 3 (split; [reflexivity|]).
    intros i zi Hi.
    assert (Hzi : shifted_overflows p zi = false).
    { apply Hfin. now apply nth_error_In with i. }
    rewrite EfieldParallel_call_cases, Hzi.
    destruct (EfieldParallel p x y zi) as [[Ex Ey] Ez] eqn:HE.
    exists Ex, Ey, Ez. split; [reflexivity|].
    rewrite !(map_nth_error _ i zs Hi), HE. now repeat split.
  - intros Hov. unfold zs. rewrite EfieldParallel_call_z_cases. fold zs.
    assert (Hsome : existsb (shifted_overflows p) zs = true)
      by now apply existsb_exists.
    now rewrite Hsome.
Qed.

End ParallelCalls.

Lemma grid_shape_witness :
  length (xCell one_cell_closure) = Z.to_nat 1 /\
  length (yCell one_cell_closure) = Z.to_nat 1 /\
  (forall row, In row (xCell one_cell_closure) -> length row = Z.to_nat 1) /\
  (forall row, In row (yCell one_cell_closure) -> length row = Z.to_nat 1) /\
  length (closure_cells one_cell_closure) = (Z.to_nat 1 * Z.to_nat 1)%nat.
Proof.
  apply (@grid_shape spec_float (B64_Arith pow_m32)
           {| eps0 := b64_of_Z 1 |} (b64_of_Z 1) (b64_of_Z 1) (b64_of_Z 1) 1 1
           one_cell_closure).
  vm_compute. reflexivity.
Defined.

(** * Further properties in binary64 arithmetic *)

Module FloatExtras.

Import FloatModel.

(** The square of a double is out of range above the square root of the
    largest double, about 1.34e154. *)
Example pow2_in_range :
  pow2_overflows (b64_of_Z (134 * 10 ^ 152)) = false.
Proof. vm_compute. reflexivity. Qed.

Example pow2_out_of_range :
  pow2_overflows (b64_of_Z (135 * 10 ^ 152)) = true.
Proof. vm_compute. reflexivity. Qed.

(** A scalar call at such a height raises. *)
Example Efield_call_overflow :
  Efield_call (A := B64_Arith pow_m32) one_cell_closure
    (b64_of_Z 0) (b64_of_Z 0) (b64_of_Z (10 ^ 200))
  = Raise OverflowError.
Proof. vm_compute. reflexivity. Qed.

Section Propagation.

Variable pow : spec_float -> spec_float -> spec_float.
Hypothesis pow_zero : forall s, pow (S754_zero s) b64_exponent = S754_infinity false.

(** The field of a constructed plate where some squared distance is zero. *)
Lemma Efield_nonfinite
    (g : Globals) (sigma Lx Ly : spec_float) (Nx Ny : Z)
    (c : PlateClosure) (cell : spec_float * spec_float)
    (x y z : spec_float) :
  constructPlateEfield (A := B64_Arith pow) g sigma Lx Ly Nx Ny = Ok c ->
  In cell (closure_cells c) ->
  is_zero (Arith := B64_Arith pow)
    (cell_r2 (A := B64_Arith pow) x y z cell) = true ->
  nonfinite (fst3 (Efield (A := B64_Arith pow) c x y z)) = true /\
  nonfinite (snd3 (Efield (A := B64_Arith pow) c x y z)) = true /\
  nonfinite (thd3 (Efield (A := B64_Arith pow) c x y z)) = true.
Proof.
  intros Hc Hin Hr2.
  destruct (constructPlateEfield_meshgrid _ _ _ _ _ _ Hc)
    as (xs & ys & _ & _ & Heq).
  rewrite Heq in Hin |- *. rewrite closure_cells_meshgrid in Hin.
  rewrite Efield_cells. cbn [fst3 snd3 thd3 fst snd].
  pose proof (@cell_Rinv3_singular pow pow_zero _ _ _ _ Hr2) as Hinf.
  repeat split; apply sum_list_nonfinite with (v := cell); try assumption;
    unfold cell_dEx, cell_dEy, cell_dEz; rewrite Hinf;
    apply nonfinite_mul_inf.
Qed.

(** X16. The singularity of one plate goes through the superposition: where
    the squared distance to a cell of either plate (at the shifted height)
    evaluates to zero, the three components of the field of the two plates
    are infinities or NaN. *)
Theorem EfieldParallel_singular_nonfinite
    (g : Globals) (sigma d Lx Ly : spec_float) (Nx Ny : Z)
    (p : ParallelClosure) (cell : spec_float * spec_float)
    (x y z : spec_float) :
  constructEfieldParallel (A := B64_Arith pow) g sigma d Lx Ly Nx Ny = Ok p ->
  (In cell (closure_cells (Efield1 p)) /\
   is_zero (Arith := B64_Arith pow)
     (cell_r2 (A := B64_Arith pow) x y
        (fadd (Arith := B64_Arith pow) z
           (fdiv (Arith := B64_Arith pow) d (b64_of_Z 2))) cell) = true)
  \/
  (In cell (closure_cells (Efield2 p)) /\
   is_zero (Arith := B64_Arith pow)
     (cell_r2 (A := B64_Arith pow) x y
        (fsub (Arith := B64_Arith pow) z
           (fdiv (Arith := B64_Arith pow) d (b64_of_Z 2))) cell) = true) ->
  nonfinite (fst3 (EfieldParallel (A := B64_Arith pow) p x y z)) = true /\
  nonfinite (snd3 (EfieldParallel (A := B64_Arith pow) p x y z)) = true /\
  nonfinite (thd3 (EfieldParallel (A := B64_Arith pow) p x y z)) = true.
Proof.
  intros Hp Hsing.
  destruct (constructEfieldParallel_inv _ _ _ _ _ _ _ Hp) as (H1 & H2 & Hd).
  rewrite EfieldParallel_vadd, Hd. unfold vadd.
  cbn [fst3 snd3 thd3 fst snd].
  destruct Hsing as [[Hin Hz] | [Hin Hz]].
  - destruct (@Efield_nonfinite _ _ _ _ _ _ _ _ _ _ _ H1 Hin Hz) as (Hx & Hy & Hzz).
    repeat split; now apply nonfinite_add_l.
  - destruct (@Efield_nonfinite _ _ _ _ _ _ _ _ _ _ _ H2 Hin Hz) as (Hx & Hy & Hzz).
    repeat split; now apply nonfinite_add_r.
Qed.

End Propagation.

Lemma EfieldParallel_singular_nonfinite_witness :
  nonfinite (fst3 (EfieldParallel (A := B64_Arith pow_m32) one_cell_parallel
                     (b64_of_Z 0) (b64_of_Z 0) (b64_of_Z (-1)))) = true /\
  nonfinite (snd3 (EfieldParallel (A := B64_Arith pow_m32) one_cell_parallel
                     (b64_of_Z 0) (b64_of_Z 0) (b64_of_Z (-1)))) = true /\
  nonfinite (thd3 (EfieldParallel (A := B64_Arith pow_m32) one_cell_parallel
                     (b64_of_Z 0) (b64_of_Z 0) (b64_of_Z (-1)))) = true.
Proof.
  apply (@EfieldParallel_singular_nonfinite pow_m32 pow_m32_zero
           {| eps0 := b64_of_Z 1 |} (b64_of_Z 1) (b64_of_Z 2)
           (b64_of_Z 1) (b64_of_Z 1) 1 1
           one_cell_parallel (S754_zero false, S754_zero false)).
  - vm_compute. reflexivity.
  - left. split; [vm_compute; now left | vm_compute; reflexivity].
Defined.

End FloatExtras.

(** * Further properties in exact real arithmetic *)

Open Scope R_scope.

Module RealExtras.

Import RealModel.

(** ** Calls in the reals

    No square is out of range there: a call returns the field [Efield]
    computes, and the vectorised call is the map over the array. *)

Lemma Efield_call_real (c : PlateClosure) (x y z : R) :
  Efield_call c x y z = Ok (Efield c x y z).
Proof. now rewrite Efield_call_cases. Qed.

Lemma vectorize_call_real (c : PlateClosure) (x y z0 : R) (zs' : list R) :
  vectorize_call (Efield_call c) x y (z0 :: zs')
  = vectorize_z (Efield c) x y (z0 :: zs').
Proof.
  rewrite vectorize_call_cases.
  assert (H : existsb pow2_overflows (z0 :: zs') = false).
  { apply existsb_false_of_all. reflexivity. }
  rewrite H. cbn [vectorize_z]. now rewrite !map_map.
Qed.

(** ** Where the cells are *)

Lemma center_range (L : R) (N : Z) (i : nat) :
  0 < L -> (i < Z.to_nat N)%nat ->
  - L / 2 + L / IZR N / 2 <= center L N i <= L / 2 - L / IZR N / 2.
Proof.
  intros HL Hi.
  assert (HN : (1 <= N)%Z) by lia.
  assert (HNpos : 0 < IZR N) by (apply IZR_lt; lia).
  assert (Hi' : INR i + 1 <= IZR N).
  { rewrite <- (INR_to_nat (N := N)) by lia. rewrite <- S_INR.
    apply le_INR. lia. }
  pose proof (pos_INR i) as Hi0.
  assert (Hd : 0 < L / IZR N) by now apply Rdiv_lt_0_compat.
  assert (HNd : IZR N * (L / IZR N) = L) by (field; lra).
  unfold center. split; nra.
Qed.

(** X3. Every cell centre of a plate of positive sides lies in the plate,
    between the first centre [-L/2 + dx/2] and the last one [L/2 - dx/2] in
    each direction. *)
Theorem cells_inside_plate
    (g : Globals) (sigma Lx Ly : R) (Nx Ny : Z) :
  0 < Lx -> 0 < Ly -> (1 <= Nx)%Z -> (1 <= Ny)%Z -> eps0 g <> 0 ->
  exists c,
    constructPlateEfield g sigma Lx Ly Nx Ny = Ok c /\
    forall xc yc,
      In (xc, yc) (closure_cells c) ->
      - Lx / 2 + Lx / IZR Nx / 2 <= xc <= Lx / 2 - Lx / IZR Nx / 2 /\
      - Ly / 2 + Ly / IZR Ny / 2 <= yc <= Ly / 2 - Ly / IZR Ny / 2.
Proof.
  intros HLx HLy HNx HNy He.
  exists (plate_closure (eps0 g) sigma Lx Ly Nx Ny).
  split; [now apply construct_ok|].
  intros xc yc Hin. unfold plate_closure in Hin.
  rewrite closure_cells_meshgrid in Hin. apply in_cells in Hin.
  destruct Hin as [Hx Hy]. unfold cell_centers in Hx, Hy.
  apply in_map_iff in Hx. destruct Hx as (i & <- & Hi).
  apply in_map_iff in Hy. destruct Hy as (j & <- & Hj).
  apply in_seq in Hi. apply in_seq in Hj.
  split; apply center_range; (assumption || lia).
Qed.

Lemma cells_inside_plate_witness :
  exists c,
    constructPlateEfield {| eps0 := 1 |} 1 6 3 4 5 = Ok c /\
    forall xc yc,
      In (xc, yc) (closure_cells c) ->
      - 6 / 2 + 6 / IZR 4 / 2 <= xc <= 6 / 2 - 6 / IZR 4 / 2 /\
      - 3 / 2 + 3 / IZR 5 / 2 <= yc <= 3 / 2 - 3 / IZR 5 / 2.
Proof.
  apply (@cells_inside_plate {| eps0 := 1 |} 1 6 3 4 5);
    [lra | lra | lia | lia | cbn; lra].
Defined.

(** ** Mirror symmetries of the field of one plate *)

Lemma Rsum_cells_reflect_x (f : R * R -> R) (xs ys : list R) :
  rev xs = map Ropp xs ->
  Rsum (map f (cells xs ys))
  = Rsum (map (fun c => f (- fst c, snd c)) (cells xs ys)).
Proof.
  intros Hx. rewrite !Rsum_cells. cbn [fst snd].
  apply Rsum_map_ext. intros y _.
  now rewrite <- (Rsum_map_rev _ xs), Hx, map_map.
Qed.

Lemma Rsum_cells_reflect_y (f : R * R -> R) (xs ys : list R) :
  rev ys = map Ropp ys ->
  Rsum (map f (cells xs ys))
  = Rsum (map (fun c => f (fst c, - snd c)) (cells xs ys)).
Proof.
  intros Hy. rewrite !Rsum_cells. cbn [fst snd].
  now rewrite <- (Rsum_map_rev _ ys), Hy, map_map.
Qed.

Lemma cell_Rinv3_reflect_x (x y z : R) (cell : R * R) :
  cell_Rinv3 (- x) y z (- fst cell, snd cell) = cell_Rinv3 x y z cell.
Proof. unfold cell_Rinv3, cell_r2, sqr. cbn. f_equal. ring. Qed.

Lemma cell_Rinv3_reflect_y (x y z : R) (cell : R * R) :
  cell_Rinv3 x (- y) z (fst cell, - snd cell) = cell_Rinv3 x y z cell.
Proof. unfold cell_Rinv3, cell_r2, sqr. cbn. f_equal. ring. Qed.

Lemma Efield_reflect_x (e sigma Lx Ly : R) (Nx Ny : Z) (x y z : R) :
  (1 <= Nx)%Z ->
  let c := plate_closure e sigma Lx Ly Nx Ny in
  Efield c (- x) y z
  = (- fst3 (Efield c x y z), snd3 (Efield c x y z), thd3 (Efield c x y z)).
Proof.
  intros HNx c. subst c. rewrite !Efield_plate_closure.
  cbn [fst3 snd3 thd3 fst snd].
  set (k := preFactor _). set (xs := cell_centers Lx Nx).
  set (ys := cell_centers Ly Ny).
  assert (Hx : rev xs = map Ropp xs) by now apply cell_centers_rev.
  rewrite (Rsum_cells_reflect_x (cell_dEx k (- x) y z) _ ys Hx).
  rewrite (Rsum_cells_reflect_x (cell_dEy k (- x) y z) _ ys Hx).
  rewrite (Rsum_cells_reflect_x (cell_dEz k (- x) y z) _ ys Hx).
  rewrite <- !Rsum_map_opp.
  f_equal; [f_equal|]; apply Rsum_map_ext; intros cell _;
    unfold cell_dEx, cell_dEy, cell_dEz; rewrite cell_Rinv3_reflect_x;
    cbn; ring.
Qed.

Lemma Efield_reflect_y (e sigma Lx Ly : R) (Nx Ny : Z) (x y z : R) :
  (1 <= Ny)%Z ->
  let c := plate_closure e sigma Lx Ly Nx Ny in
  Efield c x (- y) z
  = (fst3 (Efield c x y z), - snd3 (Efield c x y z), thd3 (Efield c x y z)).
Proof.
  intros HNy c. subst c. rewrite !Efield_plate_closure.
  cbn [fst3 snd3 thd3 fst snd].
  set (k := preFactor _). set (xs := cell_centers Lx Nx).
  set (ys := cell_centers Ly Ny).
  assert (Hy : rev ys = map Ropp ys) by now apply cell_centers_rev.
  rewrite (Rsum_cells_reflect_y (cell_dEx k x (- y) z) xs _ Hy).
  rewrite (Rsum_cells_reflect_y (cell_dEy k x (- y) z) xs _ Hy).
  rewrite (Rsum_cells_reflect_y (cell_dEz k x (- y) z) xs _ Hy).
  rewrite <- !Rsum_map_opp.
  f_equal; [f_equal|]; apply Rsum_map_ext; intros cell _;
    unfold cell_dEx, cell_dEy, cell_dEz; rewrite cell_Rinv3_reflect_y;
    cbn; ring.
Qed.

(** X4. The field of a plate is mirror symmetric in each of the three
    coordinate planes: reflecting the point in x, in y or in z reverses the
    component along that axis and keeps the two others.  In particular
    [Ez] vanishes in the plane of the plate, at every point that is not a
    cell centre. *)
Theorem Efield_mirror_symmetries
    (g : Globals) (sigma Lx Ly : R) (Nx Ny : Z) :
  (1 <= Nx)%Z -> (1 <= Ny)%Z -> eps0 g <> 0 ->
  exists c,
    constructPlateEfield g sigma Lx Ly Nx Ny = Ok c /\
    forall x y z Ex Ey Ez,
      vectorize_scalar (Efield c) x y z = (Ex, Ey, Ez) ->
      vectorize_scalar (Efield c) (- x) y z = (- Ex, Ey, Ez) /\
      vectorize_scalar (Efield c) x (- y) z = (Ex, - Ey, Ez) /\
      vectorize_scalar (Efield c) x y (- z) = (Ex, Ey, - Ez) /\
      (z = 0 -> regular_point c x y z -> Ez = 0).
Proof.
  intros HNx HNy He. exists (plate_closure (eps0 g) sigma Lx Ly Nx Ny).
  split; [now apply construct_ok|].
  intros x y z Ex Ey Ez H. unfold vectorize_scalar in *.
  rewrite Efield_reflect_x, Efield_reflect_y, Efield_z_opp by assumption.
  rewrite H. cbn [fst3 snd3 thd3 fst snd].
  repeat split. intros -> _.
  pose proof (Efield_z_opp (eps0 g) sigma Lx Ly Nx Ny x y 0) as H0.
  cbn zeta in H0. rewrite Ropp_0, H in H0. cbn in H0.
  injection H0 as H0. lra.
Qed.

Lemma Efield_mirror_symmetries_witness :
  exists c,
    constructPlateEfield {| eps0 := 1 |} 1 6 3 4 5 = Ok c /\
    forall x y z Ex Ey Ez,
      vectorize_scalar (Efield c) x y z = (Ex, Ey, Ez) ->
      vectorize_scalar (Efield c) (- x) y z = (- Ex, Ey, Ez) /\
      vectorize_scalar (Efield c) x (- y) z = (Ex, - Ey, Ez) /\
      vectorize_scalar (Efield c) x y (- z) = (Ex, Ey, - Ez) /\
      (z = 0 -> regular_point c x y z -> Ez = 0).
Proof.
  apply (@Efield_mirror_symmetries {| eps0 := 1 |} 1 6 3 4 5);
    [lia | lia | cbn; lra].
Defined.

(** ** The square plate *)

Lemma Rsum_cells_transpose (f : R * R -> R) (xs : list R) :
  Rsum (map f (cells xs xs))
  = Rsum (map (fun c => f (snd c, fst c)) (cells xs xs)).
Proof.
  rewrite !Rsum_cells. cbn [fst snd].
  apply (Rsum_swap (fun x y => f (x, y))).
Qed.

Lemma cell_Rinv3_transpose (x y z : R) (cell : R * R) :
  cell_Rinv3 y x z (snd cell, fst cell) = cell_Rinv3 x y z cell.
Proof. unfold cell_Rinv3, cell_r2, sqr. cbn. f_equal. ring. Qed.

(** X5. For a square plate cut into as many cells in x as in y, exchanging
    the x and y coordinates of the point exchanges the x and y components
    of the field. *)
Theorem Efield_square_transpose
    (g : Globals) (sigma L : R) (N : Z) :
  (1 <= N)%Z -> eps0 g <> 0 ->
  exists c,
    constructPlateEfield g sigma L L N N = Ok c /\
    forall x y z Ex Ey Ez,
      vectorize_scalar (Efield c) x y z = (Ex, Ey, Ez) ->
      vectorize_scalar (Efield c) y x z = (Ey, Ex, Ez).
Proof.
  intros HN He. exists (plate_closure (eps0 g) sigma L L N N).
  split; [now apply construct_ok|].
  intros x y z Ex Ey Ez. unfold vectorize_scalar.
  rewrite !Efield_plate_closure. set (k := preFactor _).
  intros [= <- <- <-].
  rewrite (Rsum_cells_transpose (cell_dEx k y x z)).
  rewrite (Rsum_cells_transpose (cell_dEy k y x z)).
  rewrite (Rsum_cells_transpose (cell_dEz k y x z)).
  f_equal; [f_equal|]; apply Rsum_map_ext; intros cell _;
    unfold cell_dEx, cell_dEy, cell_dEz; rewrite cell_Rinv3_transpose;
    reflexivity.
Qed.

Lemma Efield_square_transpose_witness :
  exists c,
    constructPlateEfield {| eps0 := 1 |} 1 3 3 100 100 = Ok c /\
    forall x y z Ex Ey Ez,
      vectorize_scalar (Efield c) x y z = (Ex, Ey, Ez) ->
      vectorize_scalar (Efield c) y x z = (Ey, Ex, Ez).
Proof.
  apply (@Efield_square_transpose {| eps0 := 1 |} 1 3 100); [lia | cbn; lra].
Defined.


(** ** How the field depends on the charge density and on eps0 *)

Lemma Rsum_map_scal {X : Type} (a : R) (f : X -> R) (l : list X) :
  Rsum (map (fun v => a * f v) l) = a * Rsum (map f l).
Proof. induction l as [|v l IH]; simpl; [lra | rewrite IH; lra]. Qed.

(** The field of a closure is its prefactor times the field of the same
    grid with prefactor 1. *)
Lemma Efield_preFactor (xs ys : list R) (k x y z : R) :
  let c1 := {| xCell := fst (meshgrid xs ys);
               yCell := snd (meshgrid xs ys);
               preFactor := 1 |} in
  Efield {| xCell := fst (meshgrid xs ys);
            yCell := snd (meshgrid xs ys);
            preFactor := k |} x y z
  = (k * fst3 (Efield c1 x y z), k * snd3 (Efield c1 x y z),
     k * thd3 (Efield c1 x y z)).
Proof.
  intros c1. subst c1. rewrite !Efield_cells, !sum_list_Rsum.
  cbn [fst3 snd3 thd3 fst snd]. rewrite <- !Rsum_map_scal.
  f_equal; [f_equal|]; apply Rsum_map_ext; intros cell _;
    unfold cell_dEx, cell_dEy, cell_dEz; cbn; ring.
Qed.

(** X6. The field is linear in the charge density: the plate of density
    [a * sigma] has [a] times the field of the plate of density [sigma]; a
    plate without charge has no field at any point that is not a cell
    centre. *)
Theorem Efield_linear_in_density
    (g : Globals) (a sigma Lx Ly : R) (Nx Ny : Z) :
  (1 <= Nx)%Z -> (1 <= Ny)%Z -> eps0 g <> 0 ->
  exists c ca c0,
    constructPlateEfield g sigma Lx Ly Nx Ny = Ok c /\
    constructPlateEfield g (a * sigma) Lx Ly Nx Ny = Ok ca /\
    constructPlateEfield g 0 Lx Ly Nx Ny = Ok c0 /\
    forall x y z Ex Ey Ez,
      vectorize_scalar (Efield c) x y z = (Ex, Ey, Ez) ->
      vectorize_scalar (Efield ca) x y z = (a * Ex, a * Ey, a * Ez) /\
      (regular_point c0 x y z ->
       vectorize_scalar (Efield c0) x y z = (0, 0, 0)).
Proof.
  intros HNx HNy He.
  exists (plate_closure (eps0 g) sigma Lx Ly Nx Ny),
         (plate_closure (eps0 g) (a * sigma) Lx Ly Nx Ny),
         (plate_closure (eps0 g) 0 Lx Ly Nx Ny).
  do 3 (split; [now apply construct_ok|]).
  intros x y z Ex Ey Ez. unfold vectorize_scalar, plate_closure.
  rewrite !(Efield_preFactor _ _ (_ / _)).
  set (E1 := Efield _ x y z). destruct E1 as [[Ex1 Ey1] Ez1].
  cbn [fst3 snd3 thd3 fst snd]. intros [= <- <- <-].
  unfold Rdiv. split; [|intros _]; (f_equal; [f_equal|]); ring.
Qed.

Lemma Efield_linear_in_density_witness :
  exists c ca c0,
    constructPlateEfield {| eps0 := 1 |} 2 6 3 4 5 = Ok c /\
    constructPlateEfield {| eps0 := 1 |} (3 * 2) 6 3 4 5 = Ok ca /\
    constructPlateEfield {| eps0 := 1 |} 0 6 3 4 5 = Ok c0 /\
    forall x y z Ex Ey Ez,
      vectorize_scalar (Efield c) x y z = (Ex, Ey, Ez) ->
      vectorize_scalar (Efield ca) x y z = (3 * Ex, 3 * Ey, 3 * Ez) /\
      (regular_point c0 x y z ->
       vectorize_scalar (Efield c0) x y z = (0, 0, 0)).
Proof.
  apply (@Efield_linear_in_density {| eps0 := 1 |} 3 2 6 3 4 5);
    [lia | lia | cbn; lra].
Defined.

(** X7. The value of the electric constant only rescales the field: for two
    non-zero values of [eps0], the fields of the same plate, each multiplied
    by its own [eps0], are equal. *)
Theorem Efield_inverse_in_eps0
    (g1 g2 : Globals) (sigma Lx Ly : R) (Nx Ny : Z) :
  (1 <= Nx)%Z -> (1 <= Ny)%Z -> eps0 g1 <> 0 -> eps0 g2 <> 0 ->
  exists c1 c2,
    constructPlateEfield g1 sigma Lx Ly Nx Ny = Ok c1 /\
    constructPlateEfield g2 sigma Lx Ly Nx Ny = Ok c2 /\
    forall x y z,
      let E1 := vectorize_scalar (Efield c1) x y z in
      let E2 := vectorize_scalar (Efield c2) x y z in
      eps0 g1 * fst3 E1 = eps0 g2 * fst3 E2 /\
      eps0 g1 * snd3 E1 = eps0 g2 * snd3 E2 /\
      eps0 g1 * thd3 E1 = eps0 g2 * thd3 E2.
Proof.
  intros HNx HNy He1 He2.
  exists (plate_closure (eps0 g1) sigma Lx Ly Nx Ny),
         (plate_closure (eps0 g2) sigma Lx Ly Nx Ny).
  do 2 (split; [now apply construct_ok|]).
  intros x y z. unfold vectorize_scalar, plate_closure. cbn zeta.
  rewrite !(Efield_preFactor _ _ (_ / _)).
  set (E := Efield _ x y z). destruct E as [[Ex Ey] Ez].
  cbn [fst3 snd3 thd3 fst snd].
  pose proof PI_RGT_0.
  assert (HNx0 : IZR Nx <> 0) by (apply IZR_neq0; lia).
  assert (HNy0 : IZR Ny <> 0) by (apply IZR_neq0; lia).
  repeat split; field; repeat split; (assumption || lra).
Qed.

Lemma Efield_inverse_in_eps0_witness :
  exists c1 c2,
    constructPlateEfield {| eps0 := 42 |} 1 3 3 100 100 = Ok c1 /\
    constructPlateEfield {| eps0 := eps0_SI |} 1 3 3 100 100 = Ok c2 /\
    forall x y z,
      let E1 := vectorize_scalar (Efield c1) x y z in
      let E2 := vectorize_scalar (Efield c2) x y z in
      42 * fst3 E1 = eps0_SI * fst3 E2 /\
      42 * snd3 E1 = eps0_SI * snd3 E2 /\
      42 * thd3 E1 = eps0_SI * thd3 E2.
Proof.
  apply (@Efield_inverse_in_eps0 {| eps0 := 42 |} {| eps0 := eps0_SI |}
           1 3 3 100 100);
    [lia | lia | cbn; lra | cbn; unfold eps0_SI; lra].
Defined.

(** ** Direction and size of the normal component *)

Lemma Rsum_pos {X : Type} (f : X -> R) (l : list X) :
  l <> [] -> (forall v, In v l -> 0 < f v) -> 0 < Rsum (map f l).
Proof.
  intros Hne H. destruct l as [|v l]; [contradiction|]. clear Hne.
  revert v H. induction l as [|w l IH]; intros v H.
  - cbn. pose proof (H v (or_introl eq_refl)). lra.
  - cbn [map Rsum fold_right].
    assert (0 < f v) by (apply H; now left).
    assert (0 < Rsum (map f (w :: l))).
    { apply IH. intros u Hu. apply H. now right. }
    cbn [map Rsum fold_right] in *. lra.
Qed.

Lemma cells_nonempty (L1 L2 : R) (N1 N2 : Z) :
  (1 <= N1)%Z -> (1 <= N2)%Z ->
  cells (cell_centers L1 N1) (cell_centers L2 N2) <> [].
Proof.
  intros H1 H2 E. apply (f_equal (@length _)) in E.
  rewrite length_cells, !length_cell_centers in E. cbn in E. nia.
Qed.

Lemma cell_Rinv3_pos (x y z : R) (cell : R * R) : 0 < cell_Rinv3 x y z cell.
Proof. unfold cell_Rinv3. cbn. unfold Rpower. apply exp_pos. Qed.

Lemma preFactor_pos (e sigma Lx Ly : R) (Nx Ny : Z) :
  0 < sigma -> 0 < Lx -> 0 < Ly -> 0 < e -> (1 <= Nx)%Z -> (1 <= Ny)%Z ->
  0 < preFactor (plate_closure e sigma Lx Ly Nx Ny).
Proof.
  intros Hs HLx HLy He HNx HNy. unfold plate_closure. cbn [preFactor].
  assert (0 < IZR Nx) by (apply IZR_lt; lia).
  assert (0 < IZR Ny) by (apply IZR_lt; lia).
  pose proof PI_RGT_0.
  assert (0 < Lx / IZR Nx) by now apply Rdiv_lt_0_compat.
  assert (0 < Ly / IZR Ny) by now apply Rdiv_lt_0_compat.
  assert (0 < 4 * PI * e) by (apply Rmult_lt_0_compat; lra).
  apply Rdiv_lt_0_compat; [|assumption].
  apply Rmult_lt_0_compat; [assumption|].
  now apply Rmult_lt_0_compat.
Qed.

Lemma Ez_pos_above (e sigma Lx Ly : R) (Nx Ny : Z) (x y z : R) :
  0 < sigma -> 0 < Lx -> 0 < Ly -> 0 < e -> (1 <= Nx)%Z -> (1 <= Ny)%Z ->
  0 < z ->
  0 < thd3 (Efield (plate_closure e sigma Lx Ly Nx Ny) x y z).
Proof.
  intros Hs HLx HLy He HNx HNy Hz.
  pose proof (preFactor_pos Hs HLx HLy He HNx HNy) as Hk.
  rewrite Efield_plate_closure. cbn [thd3 snd].
  apply Rsum_pos; [now apply cells_nonempty|].
  intros cell _. unfold cell_dEz.
  pose proof (cell_Rinv3_pos x y z cell).
  cbn [fmul R_Arith]. apply Rmult_lt_0_compat; [|assumption].
  now apply Rmult_lt_0_compat.
Qed.

Lemma Ez_neg_below (e sigma Lx Ly : R) (Nx Ny : Z) (x y z : R) :
  0 < sigma -> 0 < Lx -> 0 < Ly -> 0 < e -> (1 <= Nx)%Z -> (1 <= Ny)%Z ->
  z < 0 ->
  thd3 (Efield (plate_closure e sigma Lx Ly Nx Ny) x y z) < 0.
Proof.
  intros Hs HLx HLy He HNx HNy Hz.
  replace z with (- - z) by ring. rewrite Efield_z_opp. cbn [thd3 snd].
  assert (Hz' : 0 < - z) by lra.
  pose proof (@Ez_pos_above e sigma Lx Ly Nx Ny x y (- z)
                Hs HLx HLy He HNx HNy Hz').
  lra.
Qed.

(** X8. Above a plate of positive sides and positive density (with a
    positive [eps0]) the normal component [Ez] is positive, below it is
    negative: the field points away from the plate. *)
Theorem Ez_points_away
    (g : Globals) (sigma Lx Ly : R) (Nx Ny : Z) :
  0 < sigma -> 0 < Lx -> 0 < Ly -> 0 < eps0 g ->
  (1 <= Nx)%Z -> (1 <= Ny)%Z ->
  exists c,
    constructPlateEfield g sigma Lx Ly Nx Ny = Ok c /\
    forall x y z,
      (0 < z -> 0 < thd3 (vectorize_scalar (Efield c) x y z)) /\
      (z < 0 -> thd3 (vectorize_scalar (Efield c) x y z) < 0).
Proof.
  intros Hs HLx HLy He HNx HNy.
  exists (plate_closure (eps0 g) sigma Lx Ly Nx Ny).
  split; [apply construct_ok; try assumption; now apply Rgt_not_eq|].
  intros x y z. unfold vectorize_scalar. split; intros Hz.
  - now apply Ez_pos_above.
  - now apply Ez_neg_below.
Qed.

Lemma Ez_points_away_witness :
  exists c,
    constructPlateEfield {| eps0 := 42 |} 1 3 3 100 100 = Ok c /\
    forall x y z,
      (0 < z -> 0 < thd3 (vectorize_scalar (Efield c) x y z)) /\
      (z < 0 -> thd3 (vectorize_scalar (Efield c) x y z) < 0).
Proof.
  apply (@Ez_points_away {| eps0 := 42 |} 1 3 3 100 100);
    [lra | lra | lra | cbn; lra | lia | lia].
Defined.

(** X9. At height [z <> 0], wherever the point is above or below the plane
    of the plate, the normal component of the field is at most, in absolute
    value, the field [|Q| / (4 pi |eps0| z^2)] of the total charge
    [Q = sigma * Lx * Ly] gathered at distance [|z|]. *)
Theorem Ez_bounded_by_point_charge
    (g : Globals) (sigma Lx Ly : R) (Nx Ny : Z) :
  (1 <= Nx)%Z -> (1 <= Ny)%Z -> eps0 g <> 0 ->
  exists c,
    constructPlateEfield g sigma Lx Ly Nx Ny = Ok c /\
    forall x y z,
      z <> 0 ->
      Rabs (thd3 (vectorize_scalar (Efield c) x y z))
      <= Rabs (sigma * Lx * Ly / (4 * PI * eps0 g)) / (z * z).
Proof.
  intros HNx HNy He.
  exists (plate_closure (eps0 g) sigma Lx Ly Nx Ny).
  split; [now apply construct_ok|].
  intros x y z Hz. unfold vectorize_scalar.
  rewrite Efield_plate_closure. cbn [thd3 snd].
  set (k := preFactor _). set (cs := cells _ _).
  set (a := / Rabs z ^ 3).
  assert (Hzz : 0 < z * z) by nra.
  assert (Habs : 0 < Rabs z) by now apply Rabs_pos_lt.
  assert (Ha : 0 < a) by (apply Rinv_0_lt_compat, pow_lt; assumption).
  assert (HNx0 : IZR Nx <> 0) by (apply IZR_neq0; lia).
  assert (HNy0 : IZR Ny <> 0) by (apply IZR_neq0; lia).
  assert (Hb : Rabs (Rsum (map (cell_dEz k x y z) cs)
                     - Rsum (map (fun _ => 0) cs))
               <= INR (length cs) * (Rabs (k * z) * a)).
  { apply Rsum_abs_diff_bound. intros cell _.
    unfold cell_dEz, cell_Rinv3, cell_r2, sqr, exponent.
    cbn [fmul fadd fsub fdiv np_power of_Z R_Arith].
    set (s := (x - fst cell) * (x - fst cell)
              + (y - snd cell) * (y - snd cell)).
    assert (Hs : 0 <= s).
    { pose proof (Rle_0_sqr (x - fst cell)) as H1.
      pose proof (Rle_0_sqr (y - snd cell)) as H2.
      unfold Rsqr in H1, H2. unfold s. lra. }
    destruct (Rinv3_bounds (z := z) (s := s) Hz Hs) as [_ Hhi].
    fold a in Hhi. set (w := Rpower (s + z * z) (-3 / 2)) in *.
    assert (Hw : 0 < w) by (unfold w, Rpower; apply exp_pos).
    rewrite Rminus_0_r, Rabs_mult, (Rabs_pos_eq w) by lra.
    apply Rmult_le_compat_l; [apply Rabs_pos | assumption]. }
  rewrite Rsum_map_zero, Rminus_0_r in Hb.
  eapply Rle_trans; [exact Hb|]. apply Req_le.
  unfold cs. rewrite length_cells, !length_cell_centers, mult_INR,
    !INR_to_nat by lia.
  unfold k, plate_closure, a. cbn [preFactor].
  assert (Hq : sigma * Lx * Ly / (4 * PI * eps0 g)
               = IZR Ny * IZR Nx
                 * (sigma * (Lx / IZR Nx * (Ly / IZR Ny))
                    / (4 * PI * eps0 g))).
  { unfold Rdiv. set (q := / (4 * PI * eps0 g)). now field. }
  rewrite Hq.
  set (k' := sigma * (Lx / IZR Nx * (Ly / IZR Ny)) / (4 * PI * eps0 g)).
  rewrite !Rabs_mult.
  rewrite (Rabs_pos_eq (IZR Ny)) by (apply IZR_le; lia).
  rewrite (Rabs_pos_eq (IZR Nx)) by (apply IZR_le; lia).
  replace (z * z) with (Rabs z * Rabs z)
    by (unfold Rabs; destruct (Rcase_abs z); ring).
  field. lra.
Qed.

Lemma Ez_bounded_by_point_charge_witness :
  exists c,
    constructPlateEfield {| eps0 := 42 |} 1 3 3 100 100 = Ok c /\
    forall x y z,
      z <> 0 ->
      Rabs (thd3 (vectorize_scalar (Efield c) x y z))
      <= Rabs (1 * 3 * 3 / (4 * PI * 42)) / (z * z).
Proof.
  apply (@Ez_bounded_by_point_charge {| eps0 := 42 |} 1 3 3 100 100);
    [lia | lia | cbn; lra].
Defined.


(** ** The plate of one cell and the point charge *)

Lemma one_cell_Efield (e sigma Lx Ly x y z : R) :
  let K := sigma * Lx * Ly / (4 * PI * e) in
  let w := Rpower (x * x + y * y + z * z) (-3 / 2) in
  Efield (plate_closure e sigma Lx Ly 1 1) x y z
  = (K * x * w, K * y * w, K * z * w).
Proof.
  intros K w. rewrite Efield_plate_closure.
  change (cell_centers Lx 1) with [center Lx 1 0].
  change (cell_centers Ly 1) with [center Ly 1 0].
  assert (Hx : center Lx 1 0 = 0) by (unfold center; cbn; lra).
  assert (Hy : center Ly 1 0 = 0) by (unfold center; cbn; lra).
  rewrite Hx, Hy. cbn [cells flat_map map app Rsum fold_right].
  unfold cell_dEx, cell_dEy, cell_dEz, cell_Rinv3, cell_r2, sqr, exponent,
    plate_closure.
  cbn [fmul fadd fsub fdiv np_power of_Z R_Arith fst snd preFactor].
  replace ((x - 0) * (x - 0) + (y - 0) * (y - 0) + z * z)
    with (x * x + y * y + z * z) by ring.
  fold w. subst K. unfold Rdiv.
  f_equal; [f_equal|]; ring_simplify; try rewrite Rinv_1; ring.
Qed.

(** X10. A plate cut into a single cell is a point charge: on every
    non-empty array of z values, its vectorised field function returns the
    three arrays the notebook tabulates for the point charge
    [chargeDensity*Lx*Ly] at the origin. *)
Theorem one_cell_plate_is_point_charge
    (g : Globals) (sigma Lx Ly x y z0 : R) (zs' : list R) :
  eps0 g <> 0 ->
  exists c,
    constructPlateEfield g sigma Lx Ly 1 1 = Ok c /\
    vectorize_z (Efield c) x y (z0 :: zs')
    = point_charge_profile g sigma Lx Ly x y (z0 :: zs').
Proof.
  intros He. exists (plate_closure (eps0 g) sigma Lx Ly 1 1).
  split; [apply construct_ok; (lia || assumption)|].
  unfold point_charge_profile, truediv.
  rewrite is_zero_false by apply (four_pi_eps_neq0 He). cbn [bind].
  cbn [vectorize_z]. rewrite !map_map, zip_with_map_gen.
  f_equal. f_equal; [f_equal|]; apply map_ext; intros z;
    rewrite one_cell_Efield; unfold fst3, snd3, thd3, sqr, exponent;
    cbn; reflexivity.
Qed.

Lemma one_cell_plate_is_point_charge_witness :
  exists c,
    constructPlateEfield {| eps0 := 42 |} 1 3 3 1 1 = Ok c /\
    vectorize_z (Efield c) 0 0 [3; -1; 2]
    = point_charge_profile {| eps0 := 42 |} 1 3 3 0 0 [3; -1; 2].
Proof.
  apply (@one_cell_plate_is_point_charge {| eps0 := 42 |} 1 3 3 0 0 3 [-1; 2]).
  cbn. lra.
Defined.

(** X11. The tabulated point-charge field raises [ZeroDivisionError] when
    [eps0] is zero.  Otherwise, for a point on the z axis, it returns (also
    for an empty array) arrays of the length of the input, and at every
    height [z <> 0] the entries are [0], [0] and Coulomb's
    [Q/(4 pi eps0) * z/|z|^3] for [Q = chargeDensity*Lx*Ly]. *)
Theorem point_charge_profile_on_axis
    (g : Globals) (sigma Lx Ly : R) (zz : list R) :
  (eps0 g = 0 ->
   forall x y,
     point_charge_profile g sigma Lx Ly x y zz = Raise ZeroDivisionError) /\
  (eps0 g <> 0 ->
   exists Exs Eys Ezs,
     point_charge_profile g sigma Lx Ly 0 0 zz = Ok (Exs, Eys, Ezs) /\
     length Exs = length zz /\
     length Eys = length zz /\
     length Ezs = length zz /\
     forall i z,
       nth_error zz i = Some z -> z <> 0 ->
       nth_error Exs i = Some 0 /\
       nth_error Eys i = Some 0 /\
       nth_error Ezs i
       = Some (point_charge_Ez (eps0 g) (sigma * Lx * Ly) z)).
Proof.
  split.
  - intros He x y. unfold point_charge_profile, truediv.
    rewrite He. now rewrite four_pi_zero.
  - intros He. unfold point_charge_profile, truediv.
    rewrite is_zero_false by apply (four_pi_eps_neq0 He). cbn [bind].
    rewrite !map_map, zip_with_map_gen.
    do 3 eexists. split; [reflexivity|].
    rewrite !length_map. do 3 (split; [reflexivity|]).
    intros i z Hi Hz.
    rewrite !(map_nth_error _ i zz Hi).
    unfold sqr, exponent, point_charge_Ez.
    cbn [fmul fadd fsub fdiv np_power of_Z R_Arith].
    replace (0 * 0 + 0 * 0 + z * z) with (z * z) by ring.
    rewrite Rpower_neg32_sq by assumption.
    repeat split; f_equal; unfold Rdiv; ring.
Qed.


(** ** The two parallel plates *)

(** The field of the two plates, from the field of the positive plate
    alone. *)
Lemma EfieldParallel_diff (e sigma d Lx Ly : R) (Nx Ny : Z) (x y z : R) :
  let c := plate_closure e sigma Lx Ly Nx Ny in
  EfieldParallel
    {| Efield1 := c;
       Efield2 := plate_closure e (- sigma) Lx Ly Nx Ny;
       distance := d |} x y z
  = (fst3 (Efield c x y (z + d / 2)) - fst3 (Efield c x y (z - d / 2)),
     snd3 (Efield c x y (z + d / 2)) - snd3 (Efield c x y (z - d / 2)),
     thd3 (Efield c x y (z + d / 2)) - thd3 (Efield c x y (z - d / 2))).
Proof.
  intros c. unfold EfieldParallel, vectorize_scalar.
  cbn [Efield1 Efield2 distance].
  change (fadd z (fdiv d two)) with (z + d / 2).
  change (fsub z (fdiv d two)) with (z - d / 2).
  rewrite Efield_sigma_opp. fold c.
  destruct (Efield c x y (z + d / 2)) as [[Ex1 Ey1] Ez1].
  destruct (Efield c x y (z - d / 2)) as [[Ex2 Ey2] Ez2].
  cbn. triple.
Qed.

Lemma EfieldParallel_z_opp (e sigma d Lx Ly : R) (Nx Ny : Z) (x y z : R) :
  let p := {| Efield1 := plate_closure e sigma Lx Ly Nx Ny;
              Efield2 := plate_closure e (- sigma) Lx Ly Nx Ny;
              distance := d |} in
  EfieldParallel p x y (- z)
  = (- fst3 (EfieldParallel p x y z), - snd3 (EfieldParallel p x y z),
     thd3 (EfieldParallel p x y z)).
Proof.
  intros p. subst p. rewrite !EfieldParallel_diff.
  replace (- z + d / 2) with (- (z - d / 2)) by lra.
  replace (- z - d / 2) with (- (z + d / 2)) by lra.
  rewrite !Efield_z_opp. triple.
Qed.

Lemma EfieldParallel_reflect_x (e sigma d Lx Ly : R) (Nx Ny : Z) (x y z : R) :
  (1 <= Nx)%Z ->
  let p := {| Efield1 := plate_closure e sigma Lx Ly Nx Ny;
              Efield2 := plate_closure e (- sigma) Lx Ly Nx Ny;
              distance := d |} in
  EfieldParallel p (- x) y z
  = (- fst3 (EfieldParallel p x y z), snd3 (EfieldParallel p x y z),
     thd3 (EfieldParallel p x y z)).
Proof.
  intros HNx p. subst p. rewrite !EfieldParallel_diff.
  rewrite !Efield_reflect_x by assumption. triple.
Qed.

Lemma EfieldParallel_reflect_y (e sigma d Lx Ly : R) (Nx Ny : Z) (x y z : R) :
  (1 <= Ny)%Z ->
  let p := {| Efield1 := plate_closure e sigma Lx Ly Nx Ny;
              Efield2 := plate_closure e (- sigma) Lx Ly Nx Ny;
              distance := d |} in
  EfieldParallel p x (- y) z
  = (fst3 (EfieldParallel p x y z), - snd3 (EfieldParallel p x y z),
     thd3 (EfieldParallel p x y z)).
Proof.
  intros HNy p. subst p. rewrite !EfieldParallel_diff.
  rewrite !Efield_reflect_y by assumption. triple.
Qed.

(** X12. The field of the two plates has the mirror symmetries of the
    capacitor: reflecting the point in the midplane reverses [Ex] and [Ey]
    and keeps [Ez]; reflecting it in x or in y reverses that component only.
    In the midplane of two plates at a non-zero distance the field is
    normal to the plates. *)
Theorem EfieldParallel_mirror_symmetries
    (g : Globals) (sigma d Lx Ly : R) (Nx Ny : Z) :
  (1 <= Nx)%Z -> (1 <= Ny)%Z -> eps0 g <> 0 ->
  exists p,
    constructEfieldParallel g sigma d Lx Ly Nx Ny = Ok p /\
    forall x y z Ex Ey Ez,
      EfieldParallel p x y z = (Ex, Ey, Ez) ->
      EfieldParallel p x y (- z) = (- Ex, - Ey, Ez) /\
      EfieldParallel p (- x) y z = (- Ex, Ey, Ez) /\
      EfieldParallel p x (- y) z = (Ex, - Ey, Ez) /\
      (z = 0 -> d <> 0 -> Ex = 0 /\ Ey = 0).
Proof.
  intros HNx HNy He. eexists. split; [now apply parallel_ok|].
  intros x y z Ex Ey Ez H.
  rewrite EfieldParallel_z_opp, EfieldParallel_reflect_x,
    EfieldParallel_reflect_y by assumption.
  rewrite H. cbn [fst3 snd3 thd3 fst snd].
  do 3 (split; [reflexivity|]).
  intros -> _.
  pose proof (EfieldParallel_z_opp (eps0 g) sigma d Lx Ly Nx Ny x y 0) as H0.
  cbn zeta in H0. rewrite Ropp_0, H in H0.
  cbn [fst3 snd3 thd3 fst snd] in H0. injection H0 as H1 H2.
  split; lra.
Qed.

Lemma EfieldParallel_mirror_symmetries_witness :
  exists p,
    constructEfieldParallel {| eps0 := 42 |} 1 2 5 5 100 100 = Ok p /\
    forall x y z Ex Ey Ez,
      EfieldParallel p x y z = (Ex, Ey, Ez) ->
      EfieldParallel p x y (- z) = (- Ex, - Ey, Ez) /\
      EfieldParallel p (- x) y z = (- Ex, Ey, Ez) /\
      EfieldParallel p x (- y) z = (Ex, - Ey, Ez) /\
      (z = 0 -> 2 <> 0 -> Ex = 0 /\ Ey = 0).
Proof.
  apply (@EfieldParallel_mirror_symmetries {| eps0 := 42 |} 1 2 5 5 100 100);
    [lia | lia | cbn; lra].
Defined.

(** X13. Two plates at distance zero cancel: the field vanishes at every
    point that is not a cell centre.  Exchanging the two plates, by the
    sign of the distance or by the sign of the density, reverses the
    field. *)
Theorem EfieldParallel_exchange
    (g : Globals) (sigma d Lx Ly : R) (Nx Ny : Z) :
  (1 <= Nx)%Z -> (1 <= Ny)%Z -> eps0 g <> 0 ->
  exists p p0 pd ps,
    constructEfieldParallel g sigma d Lx Ly Nx Ny = Ok p /\
    constructEfieldParallel g sigma 0 Lx Ly Nx Ny = Ok p0 /\
    constructEfieldParallel g sigma (- d) Lx Ly Nx Ny = Ok pd /\
    constructEfieldParallel g (- sigma) d Lx Ly Nx Ny = Ok ps /\
    forall x y z Ex Ey Ez,
      EfieldParallel p x y z = (Ex, Ey, Ez) ->
      (regular_point (Efield1 p0) x y z ->
       EfieldParallel p0 x y z = (0, 0, 0)) /\
      EfieldParallel pd x y z = (- Ex, - Ey, - Ez) /\
      EfieldParallel ps x y z = (- Ex, - Ey, - Ez).
Proof.
  intros HNx HNy He. do 4 eexists.
  do 4 (split; [now apply parallel_ok|]).
  intros x y z Ex Ey Ez. rewrite !EfieldParallel_diff.
  replace (z + 0 / 2) with z by lra. replace (z - 0 / 2) with z by lra.
  replace (z + - d / 2) with (z - d / 2) by lra.
  replace (z - - d / 2) with (z + d / 2) by lra.
  rewrite !Efield_sigma_opp.
  intros H. apply pair_equal_spec in H. destruct H as [H <-].
  apply pair_equal_spec in H. destruct H as [<- <-].
  cbn [fst3 snd3 thd3 fst snd].
  split; [intros _; triple|]. split; triple.
Qed.

Lemma EfieldParallel_exchange_witness :
  exists p p0 pd ps,
    constructEfieldParallel {| eps0 := 42 |} 1 2 5 5 100 100 = Ok p /\
    constructEfieldParallel {| eps0 := 42 |} 1 0 5 5 100 100 = Ok p0 /\
    constructEfieldParallel {| eps0 := 42 |} 1 (- 2) 5 5 100 100 = Ok pd /\
    constructEfieldParallel {| eps0 := 42 |} (- 1) 2 5 5 100 100 = Ok ps /\
    forall x y z Ex Ey Ez,
      EfieldParallel p x y z = (Ex, Ey, Ez) ->
      (regular_point (Efield1 p0) x y z ->
       EfieldParallel p0 x y z = (0, 0, 0)) /\
      EfieldParallel pd x y z = (- Ex, - Ey, - Ez) /\
      EfieldParallel ps x y z = (- Ex, - Ey, - Ez).
Proof.
  apply (@EfieldParallel_exchange {| eps0 := 42 |} 1 2 5 5 100 100);
    [lia | lia | cbn; lra].
Defined.

(** X14. Between two plates of positive sides at a positive distance, with
    positive density and [eps0], the normal component [Ez] is positive
    everywhere: the field goes from the positive plate, which lies at
    [z = -distance/2], to the negative one. *)
Theorem EfieldParallel_between_plates
    (g : Globals) (sigma d Lx Ly : R) (Nx Ny : Z) :
  0 < sigma -> 0 < d -> 0 < Lx -> 0 < Ly -> 0 < eps0 g ->
  (1 <= Nx)%Z -> (1 <= Ny)%Z ->
  exists p,
    constructEfieldParallel g sigma d Lx Ly Nx Ny = Ok p /\
    forall x y z,
      - d / 2 < z < d / 2 -> 0 < thd3 (EfieldParallel p x y z).
Proof.
  intros Hs Hd HLx HLy He HNx HNy. eexists.
  split; [apply parallel_ok; try assumption; now apply Rgt_not_eq|].
  intros x y z [Hlo Hhi]. rewrite EfieldParallel_diff.
  cbn [thd3 snd].
  assert (H1 : 0 < z + d / 2) by lra.
  assert (H2 : z - d / 2 < 0) by lra.
  pose proof (@Ez_pos_above (eps0 g) sigma Lx Ly Nx Ny x y _
                Hs HLx HLy He HNx HNy H1).
  pose proof (@Ez_neg_below (eps0 g) sigma Lx Ly Nx Ny x y _
                Hs HLx HLy He HNx HNy H2).
  lra.
Qed.

Lemma EfieldParallel_between_plates_witness :
  exists p,
    constructEfieldParallel {| eps0 := 42 |} 1 2 5 5 100 100 = Ok p /\
    forall x y z,
      - 2 / 2 < z < 2 / 2 -> 0 < thd3 (EfieldParallel p x y z).
Proof.
  apply (@EfieldParallel_between_plates {| eps0 := 42 |} 1 2 5 5 100 100);
    [lra | lra | lra | lra | cbn; lra | lia | lia].
Defined.

(** X15. [constructEfieldParallel] raises exactly when one plate
    constructor does: [ZeroDivisionError] when a cell count or [eps0] is
    zero, [ValueError] when a cell count is negative and none is zero; it
    validates neither the lengths nor the distance. *)
Theorem constructEfieldParallel_rejects
    (g : Globals) (sigma d Lx Ly : R) (Nx Ny : Z) :
  let r := constructEfieldParallel g sigma d Lx Ly Nx Ny in
  ((exists p, r = Ok p) <-> (1 <= Nx)%Z /\ (1 <= Ny)%Z /\ eps0 g <> 0) /\
  (r = Raise ValueError
   <-> Nx <> 0%Z /\ Ny <> 0%Z /\ ((Nx < 0)%Z \/ (Ny < 0)%Z)) /\
  (r = Raise ZeroDivisionError
   <-> Nx = 0%Z \/ Ny = 0%Z \/ ((1 <= Nx)%Z /\ (1 <= Ny)%Z /\ eps0 g = 0)).
Proof.
  intros r. subst r. unfold constructEfieldParallel.
  rewrite !constructPlateEfield_cases.
  destruct (Z.eqb_spec Nx 0) as [HNx|HNx]; cbn [orb bind]; [outcome|].
  destruct (Z.eqb_spec Ny 0) as [HNy|HNy]; cbn [orb bind]; [outcome|].
  destruct (Z.ltb_spec Nx 0) as [HxNeg|HxPos]; cbn [orb bind]; [outcome|].
  destruct (Z.ltb_spec Ny 0) as [HyNeg|HyPos]; cbn [bind]; [outcome|].
  destruct (is_zero (eps0 g)) eqn:He; cbn [bind].
  - assert (He0 : eps0 g = 0).
    { cbn in He. now destruct (Req_dec_T (eps0 g) 0). }
    outcome. right; right. repeat split; (lia || assumption).
  - apply is_zero_false_inv in He. outcome. now eexists.
Qed.


(** ** Change of scale *)

Lemma cell_centers_scale (lam L : R) (N : Z) :
  cell_centers (lam * L) N = map (Rmult lam) (cell_centers L N).
Proof.
  unfold cell_centers. rewrite map_map. apply map_ext. intros i.
  unfold center, Rdiv. ring.
Qed.

Lemma cells_map (f h : R -> R) (xs ys : list R) :
  cells (map f xs) (map h ys)
  = map (fun c => (f (fst c), h (snd c))) (cells xs ys).
Proof.
  unfold cells. induction ys as [|y ys IH]; cbn [map flat_map];
    [reflexivity|].
  now rewrite map_app, !map_map, IH.
Qed.

Lemma sum_squares_zero (a b c : R) :
  a * a + b * b + c * c = 0 -> a = 0 /\ b = 0 /\ c = 0.
Proof.
  intros H.
  pose proof (Rle_0_sqr a) as Ha. pose proof (Rle_0_sqr b) as Hb.
  pose proof (Rle_0_sqr c) as Hc. unfold Rsqr in *.
  repeat split; apply Rsqr_0_uniq; unfold Rsqr; lra.
Qed.

(** The factor [r2^(-3/2)] after a change of scale, away from the cell. *)
Lemma cell_Rinv3_scale (lam x y z : R) (cell : R * R) :
  0 < lam -> cell_r2 x y z cell <> 0 ->
  cell_Rinv3 (lam * x) (lam * y) (lam * z) (lam * fst cell, lam * snd cell)
  = / lam ^ 3 * cell_Rinv3 x y z cell.
Proof.
  intros Hlam Hr. unfold cell_Rinv3.
  assert (Hr2 : cell_r2 (lam * x) (lam * y) (lam * z)
                  (lam * fst cell, lam * snd cell)
                = lam * lam * cell_r2 x y z cell).
  { unfold cell_r2, sqr. cbn. ring. }
  assert (Hpos : 0 < cell_r2 x y z cell).
  { assert (0 <= cell_r2 x y z cell).
    { unfold cell_r2, sqr. cbn.
      pose proof (Rle_0_sqr (x - fst cell)). pose proof (Rle_0_sqr z).
      pose proof (Rle_0_sqr (y - snd cell)). unfold Rsqr in *. lra. }
    lra. }
  rewrite Hr2. unfold exponent. cbn [np_power fdiv of_Z R_Arith].
  rewrite <- Rpower_mult_distr by nra.
  rewrite Rpower_neg32_sq by lra.
  now rewrite (Rabs_pos_eq lam) by lra.
Qed.

Lemma cell_dE_scale (lam k x y z : R) (cell : R * R) :
  0 < lam ->
  let cell' := (lam * fst cell, lam * snd cell) in
  cell_dEx (lam * lam * k) (lam * x) (lam * y) (lam * z) cell'
  = cell_dEx k x y z cell /\
  cell_dEy (lam * lam * k) (lam * x) (lam * y) (lam * z) cell'
  = cell_dEy k x y z cell /\
  cell_dEz (lam * lam * k) (lam * x) (lam * y) (lam * z) cell'
  = cell_dEz k x y z cell.
Proof.
  intros Hlam cell'. subst cell'.
  unfold cell_dEx, cell_dEy, cell_dEz.
  destruct (Req_dec (cell_r2 x y z cell) 0) as [H0|Hne].
  - unfold cell_r2, sqr in H0. cbn in H0.
    apply sum_squares_zero in H0. destruct H0 as (Hx & Hy & Hz).
    assert (Hz' : z = 0) by lra.
    cbn [fst snd fmul fsub R_Arith].
    replace (lam * x - lam * fst cell) with 0 by nra.
    replace (lam * y - lam * snd cell) with 0 by nra.
    rewrite Hx, Hy, Hz'. repeat split; ring.
  - rewrite cell_Rinv3_scale by assumption.
    cbn [fst snd fmul fsub R_Arith].
    repeat split; field; lra.
Qed.

(** X17. The field does not depend on the unit of length: for a fixed
    density, enlarging the plate and the position of the point by the same
    factor [lam > 0] leaves the field unchanged. *)
Theorem Efield_scale_invariant
    (g : Globals) (lam sigma Lx Ly : R) (Nx Ny : Z) :
  0 < lam -> (1 <= Nx)%Z -> (1 <= Ny)%Z -> eps0 g <> 0 ->
  exists c cl,
    constructPlateEfield g sigma Lx Ly Nx Ny = Ok c /\
    constructPlateEfield g sigma (lam * Lx) (lam * Ly) Nx Ny = Ok cl /\
    forall x y z,
      vectorize_scalar (Efield cl) (lam * x) (lam * y) (lam * z)
      = vectorize_scalar (Efield c) x y z.
Proof.
  intros Hlam HNx HNy He.
  exists (plate_closure (eps0 g) sigma Lx Ly Nx Ny),
         (plate_closure (eps0 g) sigma (lam * Lx) (lam * Ly) Nx Ny).
  do 2 (split; [now apply construct_ok|]).
  intros x y z. unfold vectorize_scalar.
  rewrite !Efield_plate_closure, !cell_centers_scale, cells_map, !map_map.
  assert (Hk : preFactor
                 (plate_closure (eps0 g) sigma (lam * Lx) (lam * Ly) Nx Ny)
               = lam * lam
                 * preFactor (plate_closure (eps0 g) sigma Lx Ly Nx Ny)).
  { unfold plate_closure, Rdiv. cbn [preFactor]. ring. }
  rewrite Hk.
  triple; apply Rsum_map_ext; intros cell _;
    now destruct (@cell_dE_scale lam
                    (preFactor (plate_closure (eps0 g) sigma Lx Ly Nx Ny))
                    x y z cell Hlam) as (H1 & H2 & H3).
Qed.

Lemma Efield_scale_invariant_witness :
  exists c cl,
    constructPlateEfield {| eps0 := 42 |} 1 3 3 100 100 = Ok c /\
    constructPlateEfield {| eps0 := 42 |} 1 (1000 * 3) (1000 * 3) 100 100
    = Ok cl /\
    forall x y z,
      vectorize_scalar (Efield cl) (1000 * x) (1000 * y) (1000 * z)
      = vectorize_scalar (Efield c) x y z.
Proof.
  apply (@Efield_scale_invariant {| eps0 := 42 |} 1000 1 3 3 100 100);
    [lra | lia | lia | cbn; lra].
Defined.

End RealExtras.
